(** * Alternating disks (disks.hpp)

    A shallow embedding of [disk_state], [sorted_disks] and the two sorting
    procedures [sort_left_to_right] and [sort_lawnmower], followed by the
    properties of the specification.

    Conventions of the embedding.
    - [std::vector<disk_color>] is a [list disk_color]; reads and writes by
      index are stdpp's [!!] and [<[_:=_]>]. Failure to allocate
      ([std::bad_alloc], [std::length_error]) is not modelled; what is
      proved of constructed rows is stated for at most UINT_MAX pairs.
    - [assert] is modelled as enabled: an operation returns [AssertFail] where
      the C++ assertion aborts. A call that never returns is [NoReturn].
    - Integer widths are those of an LP64 platform: [size_t] has 64 bits,
      [unsigned] and [int] have 32.
    - [size_t]: the product [light_count * 2] of the constructor wraps
      modulo 2^64 ([size_mul]); the subtraction [total_count() - 1] wraps
      on an empty row only, which is written out in [forward_pass] and
      [backward_pass]. Every other [size_t] value of the code is an index
      below the length of a vector or one more, and is a [nat].
    - [unsigned]: the counters of [is_sorted] and [is_alternating] wrap
      modulo 2^32 ([uint_add]). Once such a counter has wrapped the loop
      repeats the same run for ever; the loops are given as many
      iterations as a run without wrap can take and return [NoReturn]
      when these are used up.
    - [int swap_count] is only ever incremented and then converted to
      [unsigned]: the loops carry the number of increments, and the
      conversion at the constructor call of [sorted_disks] is written out
      ([int_of_increments], [to_unsigned], 32-bit two's complement).
    - The [while] loops take a bound on the number of outer iterations and
      return [None] when it is exhausted. *)

From Stdlib Require Import ZArith Lia.
From Stdlib Require Strings.String Strings.Ascii.
From stdpp Require Import base list.
Import Stdlib.Strings.Ascii.AsciiSyntax Stdlib.Strings.String.StringSyntax.
Delimit Scope string_scope with string.
Delimit Scope char_scope with char.

Open Scope nat_scope.

(** ** Assertions *)

Inductive checked (A : Type) : Type :=
| Ret (a : A)
| AssertFail
| NoReturn.
Arguments Ret {A} a.
Arguments AssertFail {A}.
Arguments NoReturn {A}.

Definition cbind {A B : Type} (m : checked A) (k : A -> checked B) : checked B :=
  match m with
  | Ret a => k a
  | AssertFail => AssertFail
  | NoReturn => NoReturn
  end.

Notation "x <- m ;; k" := (cbind m (fun x => k))
  (at level 100, m at next level, right associativity).

Definition assert (b : bool) : checked unit :=
  if b then Ret tt else AssertFail.

(** ** Machine integers *)

Definition SIZE_MAX : N := 18446744073709551615.

Definition UINT_MAX : N := 4294967295.

(** Product of two [size_t]. *)
Definition size_mul (a b : N) : N := ((a * b) mod (SIZE_MAX + 1))%N.

(** Sum of two [unsigned]. *)
Definition uint_add (a b : N) : N := ((a + b) mod (UINT_MAX + 1))%N.

(** A number of disks that a [size_t] can hold. *)
Definition fits_size (n : nat) : Prop := (N.of_nat n <= SIZE_MAX)%N.

(** A length that a counter stepping by 2 from 0 reaches or passes
    without wrapping. *)
Definition counts_by_two (n : nat) : Prop := (N.of_nat n < UINT_MAX)%N.

(** A number that an [unsigned] can hold. *)
Definition fits_unsigned (n : nat) : Prop := (N.of_nat n <= UINT_MAX)%N.

(** ** disk_color and disk_state *)

Inductive disk_color : Type := DISK_LIGHT | DISK_DARK.

#[global] Instance disk_color_eq_dec : EqDecision disk_color.
Proof. solve_decision. Defined.

(** The only member of the class is [_colors]. *)
Abbreviation disk_state := (list disk_color) (only parsing).

(** [for (size_t i = 0; i < _colors.size(); i += 2) _colors[i] = DISK_DARK;]
    The size is even and below 2^64, so [i += 2] does not wrap. *)
Fixpoint paint_dark (fuel i : nat) (colors : disk_state) : disk_state :=
  match fuel with
  | 0 => colors
  | S fuel' =>
      if i <? length colors
      then paint_dark fuel' (i + 2) (<[i := DISK_DARK]> colors)
      else colors
  end.

(** The constructor [disk_state(size_t light_count)]: the vector has
    [light_count * 2] elements, the product taken in [size_t]. *)
Definition disk_state_new (light_count : nat) : checked disk_state :=
  let colors :=
    replicate (N.to_nat (size_mul (N.of_nat light_count) 2)) DISK_LIGHT in
  _ <- assert (0 <? light_count) ;;
  Ret (paint_dark (length colors) 0 colors).

Definition total_count (d : disk_state) : nat := length d.

Definition light_count (d : disk_state) : nat := total_count d / 2.

Definition dark_count (d : disk_state) : nat := light_count d.

Definition is_index (d : disk_state) (i : nat) : bool := i <? total_count d.

Definition get (d : disk_state) (index : nat) : checked disk_color :=
  _ <- assert (is_index d index) ;;
  match d !! index with
  | Some c => Ret c
  | None => AssertFail
  end.

(** [std::swap(_colors[i], _colors[j])] *)
Definition std_swap (i j : nat) (colors : disk_state) : disk_state :=
  match colors !! i, colors !! j with
  | Some x, Some y => <[j := x]> (<[i := y]> colors)
  | _, _ => colors
  end.

Definition swap (d : disk_state) (left_index : nat) : checked disk_state :=
  _ <- assert (is_index d left_index) ;;
  let right_index := left_index + 1 in
  _ <- assert (is_index d right_index) ;;
  Ret (std_swap left_index right_index d).

(** The loop of [is_sorted]:
    [for (unsigned i = 0; i < (total_count() / 2); i++)] with the flag [s].
    Each unit of [fuel] is one test of the loop condition. *)
Fixpoint is_sorted_loop (fuel : nat) (i : N) (s : bool) (d : disk_state)
  : checked bool :=
  match fuel with
  | 0 => NoReturn
  | S fuel' =>
      if (i <? N.of_nat (total_count d / 2))%N
      then
        c <- get d (N.to_nat i) ;;
        match c with
        | DISK_LIGHT => is_sorted_loop fuel' (uint_add i 1) true d
        | DISK_DARK => Ret false
        end
      else Ret s
  end.

(** A run in which [i] does not wrap tests the condition at most
    [total_count() / 2 + 1] times; more iterations never change the
    outcome ([is_sorted_fuel_irrelevant]). *)
Definition is_sorted (d : disk_state) : checked bool :=
  is_sorted_loop (S (total_count d / 2)) 0 false d.

(** ** sorted_disks *)

Record sorted_disks : Type := mk_sorted_disks {
  after : disk_state;
  swap_count : Z
}.

(** Value of an [int] that started at 0 and was incremented [k] times. *)
Definition int_of_increments (k : nat) : Z :=
  ((Z.of_nat k + 2 ^ 31) mod 2 ^ 32 - 2 ^ 31)%Z.

(** Conversion of an [int] to [unsigned]. *)
Definition to_unsigned (z : Z) : Z := (z mod 2 ^ 32)%Z.

(** [sorted_disks(after, swap_count)] with [swap_count] the [int] local. *)
Definition make_result (st : disk_state * nat) : sorted_disks :=
  mk_sorted_disks (fst st) (to_unsigned (int_of_increments (snd st))).

(** ** The two passes

    The state of a sort is the working copy [after] and the number of
    executions of [swap_count++]. *)

Abbreviation sort_state := (list disk_color * nat)%type (only parsing).

(** Body of the left-to-right [for] loop at index [i]; [&&] evaluates its
    right operand only when the left one holds. *)
Definition forward_step (i : nat) (st : sort_state) : checked sort_state :=
  x <- get (fst st) i ;;
  match x with
  | DISK_DARK =>
      y <- get (fst st) (i + 1) ;;
      match y with
      | DISK_LIGHT => d <- swap (fst st) i ;; Ret (d, S (snd st))
      | DISK_DARK => Ret st
      end
  | DISK_LIGHT => Ret st
  end.

Fixpoint forward_loop (todo i : nat) (st : sort_state) : checked sort_state :=
  match todo with
  | 0 => Ret st
  | S todo' => st' <- forward_step i st ;; forward_loop todo' (S i) st'
  end.

(** [for (size_t i = 0; i < after.total_count() - 1; i++)]. On an empty row
    the bound wraps to SIZE_MAX, the body runs at [i = 0] and [get(0)]
    aborts. Swaps keep the length, so the bound is that of the row on
    entry. *)
Definition forward_pass (st : sort_state) : checked sort_state :=
  match total_count (fst st) with
  | 0 => AssertFail
  | S last => forward_loop last 0 st
  end.

(** Body of the right-to-left [for] loop at index [j]. *)
Definition backward_step (j : nat) (st : sort_state) : checked sort_state :=
  x <- get (fst st) j ;;
  match x with
  | DISK_LIGHT =>
      y <- get (fst st) (j - 1) ;;
      match y with
      | DISK_DARK => d <- swap (fst st) (j - 1) ;; Ret (d, S (snd st))
      | DISK_LIGHT => Ret st
      end
  | DISK_DARK => Ret st
  end.

(** [for (size_t j = ...; j > 0; j--)] *)
Fixpoint backward_loop (j : nat) (st : sort_state) : checked sort_state :=
  match j with
  | 0 => Ret st
  | S j' => st' <- backward_step j st ;; backward_loop j' st'
  end.

(** [j] starts at [after.total_count() - 1]; on an empty row that is
    SIZE_MAX and [get(SIZE_MAX)] aborts. *)
Definition backward_pass (st : sort_state) : checked sort_state :=
  match total_count (fst st) with
  | 0 => AssertFail
  | S last => backward_loop last st
  end.

(** ** The two algorithms *)

(** [while (!after.is_sorted()) { forward pass }] *)
Fixpoint left_to_right_while (fuel : nat) (st : sort_state)
  : option (checked sort_state) :=
  match is_sorted (fst st) with
  | AssertFail => Some AssertFail
  | NoReturn => Some NoReturn
  | Ret true => Some (Ret st)
  | Ret false =>
      match fuel with
      | 0 => None
      | S fuel' =>
          match forward_pass st with
          | AssertFail => Some AssertFail
          | NoReturn => Some NoReturn
          | Ret st' => left_to_right_while fuel' st'
          end
      end
  end.

(** [while (!after.is_sorted()) { forward pass; backward pass }] *)
Fixpoint lawnmower_while (fuel : nat) (st : sort_state)
  : option (checked sort_state) :=
  match is_sorted (fst st) with
  | AssertFail => Some AssertFail
  | NoReturn => Some NoReturn
  | Ret true => Some (Ret st)
  | Ret false =>
      match fuel with
      | 0 => None
      | S fuel' =>
          match (st1 <- forward_pass st ;; backward_pass st1) with
          | AssertFail => Some AssertFail
          | NoReturn => Some NoReturn
          | Ret st' => lawnmower_while fuel' st'
          end
      end
  end.

Definition finish (r : option (checked sort_state))
  : option (checked sorted_disks) :=
  match r with
  | None => None
  | Some AssertFail => Some AssertFail
  | Some NoReturn => Some NoReturn
  | Some (Ret st) => Some (Ret (make_result st))
  end.

Definition sort_left_to_right (fuel : nat) (before : disk_state)
  : option (checked sorted_disks) :=
  finish (left_to_right_while fuel (before, 0)).

Definition sort_lawnmower (fuel : nat) (before : disk_state)
  : option (checked sorted_disks) :=
  finish (lawnmower_while fuel (before, 0)).

(** ** Quantities of the specification *)

Fixpoint count_color (c : disk_color) (d : disk_state) : nat :=
  match d with
  | [] => 0
  | x :: d' => (if decide (x = c) then 1 else 0) + count_color c d'
  end.

(** Rows obtainable through the public interface: built by the constructor,
    then changed by [swap] only. *)
Inductive reachable : disk_state -> Prop :=
| reach_new n d : disk_state_new n = Ret d -> reachable d
| reach_swap d i d' : reachable d -> swap d i = Ret d' -> reachable d'.

(** As many light as dark disks, and at least one of each. *)
Definition balanced (d : disk_state) : Prop :=
  1 <= count_color DISK_LIGHT d /\
  count_color DISK_LIGHT d = count_color DISK_DARK d.

(** A row of [2n] disks, the first [n] light and the last [n] dark. *)
Definition light_then_dark (n : nat) (d : disk_state) : Prop :=
  total_count d = 2 * n /\
  (forall i, i < n -> get d i = Ret DISK_LIGHT) /\
  (forall i, n <= i -> i < 2 * n -> get d i = Ret DISK_DARK).

(** ** Auxiliary functions used in the proofs *)

(** One scan along [x :: l] that exchanges a neighbouring [a], [b] pair and
    moves on: the list it leaves and the number of exchanges. *)
Fixpoint bubble (a b x : disk_color) (l : list disk_color)
  : list disk_color * nat :=
  match l with
  | [] => ([x], 0)
  | y :: l' =>
      if decide (x = a /\ y = b)
      then (b :: fst (bubble a b a l'), S (snd (bubble a b a l')))
      else (x :: fst (bubble a b y l'), snd (bubble a b y l'))
  end.

(** The scan of a whole list. *)
Definition scan (a b : disk_color) (l : list disk_color)
  : list disk_color * nat :=
  match l with
  | [] => ([], 0)
  | x :: l' => bubble a b x l'
  end.

(** Number of pairs of positions [i < j] holding [a] at [i] and [b] at [j]. *)
Fixpoint inversions (a b : disk_color) (l : list disk_color) : nat :=
  match l with
  | [] => 0
  | x :: l' => (if decide (x = a) then count_color b l' else 0) + inversions a b l'
  end.

(** [a, b] repeated [m] times. *)
Fixpoint alternating (a b : disk_color) (m : nat) : list disk_color :=
  match m with
  | 0 => []
  | S m' => a :: b :: alternating a b m'
  end.

(** [k] times [b], then [a, b] repeated [m] times, then [k'] times [a]. *)
Definition pattern (a b : disk_color) (k m k' : nat) : list disk_color :=
  replicate k b ++ alternating a b m ++ replicate k' a.

(** The canonical initial row of [n] pairs. *)
Definition canonical (n : nat) : disk_state := alternating DISK_DARK DISK_LIGHT n.

(** The number of pairs in the row that the constructor builds for [n]:
    half of the wrapped product. *)
Definition wrapped_pairs (n : nat) : nat :=
  N.to_nat (size_mul (N.of_nat n) 2 / 2).

(** The least number of pairs whose doubling wraps to 0 in a [size_t]. *)
Definition wrapping_pairs : nat := N.to_nat 9223372036854775808.

(** The least number of pairs that the counter of [is_sorted] cannot
    count. *)
Definition uncounted_pairs : nat := N.to_nat 4294967296.

(** The row with [n] light disks followed by [n] dark disks. *)
Definition sorted_row (n : nat) : disk_state :=
  replicate n DISK_LIGHT ++ replicate n DISK_DARK.

Definition triangle (n : nat) : nat := n * (n + 1) / 2.

(** ** The remaining members of disk_state

    [operator==] is [std::equal(_colors.begin(), _colors.end(),
    rhs._colors.begin())]. The call requires [rhs] to have at least as
    many elements as the left row and is undefined otherwise ([None]);
    when it is defined it tells whether the left row and the elements of
    [rhs] at the same positions are equal. *)
Fixpoint all_equal (colors rhs : disk_state) : bool :=
  match colors, rhs with
  | [], _ => true
  | _ :: _, [] => false
  | x :: colors', y :: rhs' => bool_decide (x = y) && all_equal colors' rhs'
  end.

Definition std_equal (colors rhs : disk_state) : option bool :=
  if length rhs <? length colors then None else Some (all_equal colors rhs).

Definition equals (d rhs : disk_state) : option bool := std_equal d rhs.

(** Body of the range [for] of [to_string]: the state is the contents of
    the stream [ss] and the flag [first]. *)
Definition to_string_step (st : String.string * bool) (color : disk_color)
  : String.string * bool :=
  let ss := if snd st then fst st else String.append (fst st) " "%string in
  let ss :=
    match color with
    | DISK_LIGHT => String.append ss "L"%string
    | DISK_DARK => String.append ss "D"%string
    end in
  (ss, false).

Definition to_string (d : disk_state) : String.string :=
  fst (fold_left to_string_step d (String.EmptyString, true)).

(** The loop of [is_alternating]:
    [for (unsigned i = 0; i < total_count(); i = i + 2)] with the flag [s].
    Each unit of [fuel] is one test of the loop condition. *)
Fixpoint is_alternating_loop (fuel : nat) (i : N) (s : bool) (d : disk_state)
  : checked bool :=
  match fuel with
  | 0 => NoReturn
  | S fuel' =>
      if (i <? N.of_nat (total_count d))%N
      then
        c <- get d (N.to_nat i) ;;
        match c with
        | DISK_DARK => is_alternating_loop fuel' (uint_add i 2) true d
        | DISK_LIGHT => Ret false
        end
      else Ret s
  end.

(** A run in which [i] does not wrap tests the condition at most
    [total_count() + 1] times; more iterations never change the outcome
    ([is_alternating_fuel_irrelevant]). *)
Definition is_alternating (d : disk_state) : checked bool :=
  is_alternating_loop (S (total_count d)) 0 false d.



(** The colour the constructor leaves at index [i]. *)
Definition initial_color (i : nat) : disk_color :=
  if Nat.even i then DISK_DARK else DISK_LIGHT.

(** The letter [to_string] writes for a disk. *)
Definition letter (c : disk_color) : Ascii.ascii :=
  match c with
  | DISK_LIGHT => "L"%char
  | DISK_DARK => "D"%char
  end.

(** What [to_string] writes after the first letter: a space and a letter
    for each further disk. *)
Fixpoint spaced (d : list disk_color) : String.string :=
  match d with
  | [] => String.EmptyString
  | c :: d' => String.String " "%char (String.String (letter c) (spaced d'))
  end.

(** * Properties *)

(** ** Reading and swapping inside a row written as an append *)

Lemma get_middle (pre : list disk_color) x l :
  get (pre ++ x :: l) (length pre) = Ret x.
Proof.
  unfold get, is_index, total_count. rewrite length_app. simpl.
  replace (length pre <? length pre + S (length l)) with true
    by (symmetry; apply Nat.ltb_lt; lia).
  simpl. now rewrite list_lookup_middle.
Qed.

Lemma get_middle_next (pre : list disk_color) x y l :
  get (pre ++ x :: y :: l) (length pre + 1) = Ret y.
Proof.
  replace (pre ++ x :: y :: l) with ((pre ++ [x]) ++ y :: l)
    by (now rewrite <- app_assoc).
  replace (length pre + 1) with (length (pre ++ [x]))
    by (rewrite length_app; reflexivity).
  apply get_middle.
Qed.

Lemma std_swap_middle (pre : list disk_color) x y l :
  std_swap (length pre) (length pre + 1) (pre ++ x :: y :: l) = pre ++ y :: x :: l.
Proof.
  unfold std_swap. rewrite list_lookup_middle by reflexivity.
  replace (pre ++ x :: y :: l) with ((pre ++ [x]) ++ y :: l) at 1
    by (now rewrite <- app_assoc).
  rewrite list_lookup_middle by (rewrite length_app; reflexivity).
  induction pre as [|z pre IH]; simpl; [reflexivity|].
  f_equal. exact IH.
Qed.

Lemma swap_middle (pre : list disk_color) x y l :
  swap (pre ++ x :: y :: l) (length pre) = Ret (pre ++ y :: x :: l).
Proof.
  unfold swap, is_index, total_count. rewrite length_app. simpl.
  replace (length pre <? length pre + S (S (length l))) with true
    by (symmetry; apply Nat.ltb_lt; lia).
  replace (length pre + 1 <? length pre + S (S (length l))) with true
    by (symmetry; apply Nat.ltb_lt; lia).
  simpl. now rewrite std_swap_middle.
Qed.

(** ** The passes, as scans of the list *)

Lemma forward_loop_bubble l : forall x pre c,
  forward_loop (length l) (length pre) (pre ++ x :: l, c)
  = Ret (pre ++ fst (bubble DISK_DARK DISK_LIGHT x l),
         c + snd (bubble DISK_DARK DISK_LIGHT x l)).
Proof.
  induction l as [|y l IH]; intros x pre c; simpl.
  - now rewrite Nat.add_0_r.
  - unfold forward_step; simpl fst; simpl snd.
    rewrite get_middle. simpl.
    destruct x; simpl.
    + (* light: nothing to do at this index *)
      destruct (decide (DISK_LIGHT = DISK_DARK /\ y = DISK_LIGHT)) as [[E _]|_];
        [discriminate E|].
      specialize (IH y (pre ++ [DISK_LIGHT]) c).
      rewrite length_app, Nat.add_1_r, <- !app_assoc in IH. exact IH.
    + rewrite get_middle_next. simpl.
      destruct y; simpl.
      * rewrite swap_middle. simpl.
        destruct (decide (DISK_DARK = DISK_DARK /\ DISK_LIGHT = DISK_LIGHT))
          as [_|N]; [|exfalso; apply N; split; reflexivity].
        specialize (IH DISK_DARK (pre ++ [DISK_LIGHT]) (S c)).
        rewrite length_app, Nat.add_1_r, <- !app_assoc in IH. simpl in IH.
        rewrite IH. simpl. now rewrite Nat.add_succ_r.
      * destruct (decide (DISK_DARK = DISK_DARK /\ DISK_DARK = DISK_LIGHT))
          as [[_ E]|_]; [discriminate E|].
        specialize (IH DISK_DARK (pre ++ [DISK_DARK]) c).
        rewrite length_app, Nat.add_1_r, <- !app_assoc in IH. exact IH.
Qed.

Lemma forward_pass_bubble x l c :
  forward_pass (x :: l, c)
  = Ret (fst (bubble DISK_DARK DISK_LIGHT x l),
         c + snd (bubble DISK_DARK DISK_LIGHT x l)).
Proof.
  unfold forward_pass. simpl. exact (forward_loop_bubble l x [] c).
Qed.

Lemma backward_loop_bubble lr : forall x post c,
  backward_loop (length lr) (reverse lr ++ x :: post, c)
  = Ret (reverse (fst (bubble DISK_LIGHT DISK_DARK x lr)) ++ post,
         c + snd (bubble DISK_LIGHT DISK_DARK x lr)).
Proof.
  induction lr as [|y lr IH]; intros x post c.
  - simpl. now rewrite Nat.add_0_r.
  - assert (Hj : S (length lr) = length (reverse lr) + 1)
      by (rewrite length_reverse; lia).
    assert (Hj' : S (length lr) - 1 = length (reverse lr))
      by (rewrite length_reverse; lia).
    cbn [length backward_loop bubble]. unfold backward_step. cbn [fst snd].
    rewrite reverse_cons, <- app_assoc. cbn [app].
    rewrite Hj' , Hj, get_middle_next. cbn [cbind].
    destruct x.
    + rewrite get_middle. cbn [cbind].
      destruct y.
      * destruct (decide (DISK_LIGHT = DISK_LIGHT /\ DISK_LIGHT = DISK_DARK))
          as [[_ E]|_]; [discriminate E|].
        cbn [cbind fst snd]. rewrite reverse_cons, <- app_assoc. apply IH.
      * rewrite swap_middle.
        destruct (decide (DISK_LIGHT = DISK_LIGHT /\ DISK_DARK = DISK_DARK))
          as [_|N]; [|exfalso; apply N; split; reflexivity].
        cbn [cbind fst snd]. rewrite reverse_cons, <- app_assoc.
        rewrite IH. cbn [app]. now rewrite Nat.add_succ_r.
    + destruct (decide (DISK_DARK = DISK_LIGHT /\ y = DISK_DARK)) as [[E _]|_];
        [discriminate E|].
      cbn [cbind fst snd]. rewrite reverse_cons, <- app_assoc. apply IH.
Qed.

Lemma backward_pass_bubble x lr c :
  backward_pass (reverse (x :: lr), c)
  = Ret (reverse (fst (bubble DISK_LIGHT DISK_DARK x lr)),
         c + snd (bubble DISK_LIGHT DISK_DARK x lr)).
Proof.
  unfold backward_pass, total_count. simpl fst.
  rewrite length_reverse. simpl length.
  rewrite reverse_cons.
  pose proof (backward_loop_bubble lr x [] c) as H.
  rewrite app_nil_r in H. exact H.
Qed.

(** ** Counting colours *)

Lemma count_color_Permutation c (l l' : list disk_color) :
  l ≡ₚ l' -> count_color c l = count_color c l'.
Proof.
  induction 1; simpl; lia.
Qed.

Lemma count_color_app c (l l' : list disk_color) :
  count_color c (l ++ l') = count_color c l + count_color c l'.
Proof.
  induction l as [|x l IH]; simpl; [reflexivity|]. rewrite IH. lia.
Qed.

Lemma count_color_replicate_same c k : count_color c (replicate k c) = k.
Proof.
  induction k as [|k IH]; simpl; [reflexivity|].
  rewrite decide_True by reflexivity. now rewrite IH.
Qed.

Lemma count_color_replicate_other c c' k :
  c' <> c -> count_color c (replicate k c') = 0.
Proof.
  intros Hne. induction k as [|k IH]; simpl; [reflexivity|].
  rewrite decide_False by exact Hne. exact IH.
Qed.

Lemma count_color_total (l : list disk_color) :
  count_color DISK_LIGHT l + count_color DISK_DARK l = length l.
Proof.
  induction l as [|x l IH]; simpl; [reflexivity|].
  destruct x; simpl; lia.
Qed.

(** ** One scan: permutation, inversions, progress *)

Section BubbleFacts.
Variables a b : disk_color.
Hypothesis Hab : a <> b.

Lemma two_colors (c : disk_color) : c = a \/ c = b.
Proof using Hab. destruct a, b, c; auto; congruence. Qed.

Lemma bubble_Permutation l : forall x, x :: l ≡ₚ fst (bubble a b x l).
Proof.
  induction l as [|y l IH]; intros x; simpl; [reflexivity|].
  destruct (decide (x = a /\ y = b)) as [[-> ->] | _]; simpl.
  - rewrite <- IH. apply perm_swap.
  - now rewrite <- IH.
Qed.

Lemma bubble_inversions l : forall x,
  inversions a b (fst (bubble a b x l)) + snd (bubble a b x l)
  = inversions a b (x :: l).
Proof using Hab.
  induction l as [|y l IH]; intros x; [simpl; lia|].
  cbn [bubble].
  destruct (decide (x = a /\ y = b)) as [[-> ->] | _]; cbn [fst snd].
  - specialize (IH a). cbn [inversions count_color] in *.
    repeat case_decide; try congruence; lia.
  - specialize (IH y).
    pose proof (count_color_Permutation b _ _ (bubble_Permutation l y)) as Hc.
    cbn [inversions] in *. rewrite <- Hc. lia.
Qed.

Lemma bubble_progress l : forall x,
  snd (bubble a b x l) = 0 -> inversions a b (x :: l) = 0.
Proof using Hab.
  induction l as [|y l IH]; intros x; [simpl; intros _; destruct (decide (x = a)); reflexivity|].
  cbn [bubble].
  destruct (decide (x = a /\ y = b)) as [[-> ->] | Hn]; cbn [fst snd];
    [discriminate|].
  intros H0. specialize (IH y H0).
  cbn [inversions count_color] in *.
  destruct (decide (x = a)) as [-> | _]; [|lia].
  destruct (two_colors y) as [-> | ->]; [|exfalso; apply Hn; now split].
  repeat case_decide; try congruence; lia.
Qed.

(** The scan on the rows met when sorting the canonical row. *)

Lemma bubble_replicate q :
  bubble a b a (replicate q a) = (replicate (S q) a, 0).
Proof using Hab.
  induction q as [|q IH]; [reflexivity|].
  cbn [replicate bubble].
  rewrite decide_False by (intros [_ E]; congruence).
  now rewrite IH.
Qed.

Lemma bubble_alternating m q :
  bubble a b a (alternating a b m ++ replicate q a)
  = (alternating a b m ++ replicate (S q) a, m).
Proof using Hab.
  induction m as [|m IH]; [apply bubble_replicate|].
  cbn [alternating app bubble].
  rewrite decide_False by (intros [_ E]; congruence).
  rewrite decide_True by (split; reflexivity).
  now rewrite IH.
Qed.

Lemma bubble_leading x l :
  bubble a b b (x :: l) = (b :: fst (bubble a b x l), snd (bubble a b x l)).
Proof using Hab.
  cbn [bubble]. now rewrite decide_False by (intros [E _]; congruence).
Qed.
End BubbleFacts.

(** ** The passes on whole rows *)

Lemma forward_pass_scan d c :
  d <> [] ->
  forward_pass (d, c)
  = Ret (fst (scan DISK_DARK DISK_LIGHT d), c + snd (scan DISK_DARK DISK_LIGHT d)).
Proof.
  destruct d as [|x l]; [congruence|]. intros _. apply forward_pass_bubble.
Qed.

Lemma backward_pass_scan d c :
  d <> [] ->
  backward_pass (d, c)
  = Ret (reverse (fst (scan DISK_LIGHT DISK_DARK (reverse d))),
         c + snd (scan DISK_LIGHT DISK_DARK (reverse d))).
Proof.
  intros Hd. destruct (reverse d) as [|x lr] eqn:E.
  - apply (f_equal reverse) in E. rewrite reverse_involutive in E.
    now subst d.
  - apply (f_equal reverse) in E. rewrite reverse_involutive in E.
    subst d. apply backward_pass_bubble.
Qed.

Section ScanFacts.
Variables a b : disk_color.
Hypothesis Hab : a <> b.

Lemma scan_Permutation l : l ≡ₚ fst (scan a b l).
Proof.
  destruct l as [|x l]; [reflexivity|]. apply bubble_Permutation.
Qed.

Lemma scan_inversions l :
  inversions a b (fst (scan a b l)) + snd (scan a b l) = inversions a b l.
Proof using Hab.
  destruct l as [|x l]; [reflexivity|]. now apply bubble_inversions.
Qed.

Lemma scan_progress l : snd (scan a b l) = 0 -> inversions a b l = 0.
Proof using Hab.
  destruct l as [|x l]; [reflexivity|]. now apply bubble_progress.
Qed.

Lemma bubble_leading_scan l :
  bubble a b b l = (b :: fst (scan a b l), snd (scan a b l)).
Proof using Hab.
  destruct l as [|x l]; [reflexivity|]. now apply bubble_leading.
Qed.

Lemma scan_replicate_app k l :
  scan a b (replicate k b ++ l)
  = (replicate k b ++ fst (scan a b l), snd (scan a b l)).
Proof using Hab.
  induction k as [|k IH]; [simpl; now destruct (scan a b l)|].
  cbn [replicate app scan]. rewrite bubble_leading_scan, IH. reflexivity.
Qed.

Lemma scan_pattern_step k m q :
  scan a b (pattern a b k (S m) q) = (pattern a b (S k) m (S q), S m).
Proof using Hab.
  unfold pattern. rewrite scan_replicate_app.
  cbn [alternating app scan bubble].
  rewrite decide_True by (split; reflexivity).
  rewrite bubble_alternating by exact Hab. cbn [fst snd].
  f_equal. rewrite (replicate_S_end k b), <- app_assoc. reflexivity.
Qed.

Lemma scan_pattern_done k q :
  scan a b (pattern a b k 0 q) = (pattern a b k 0 q, 0).
Proof using Hab.
  unfold pattern. rewrite scan_replicate_app. cbn [alternating app].
  destruct q as [|q]; [reflexivity|].
  cbn [replicate scan]. now rewrite bubble_replicate.
Qed.
End ScanFacts.

Lemma alternating_snoc a b m :
  alternating a b (S m) = alternating a b m ++ [a; b].
Proof.
  induction m as [|m IH]; [reflexivity|].
  cbn [alternating app] in *. now rewrite <- IH.
Qed.

Lemma reverse_alternating a b m :
  reverse (alternating a b m) = alternating b a m.
Proof.
  induction m as [|m IH]; [reflexivity|].
  cbn [alternating]. rewrite !reverse_cons, IH, <- app_assoc.
  symmetry. apply alternating_snoc.
Qed.

Lemma reverse_pattern a b k m q :
  reverse (pattern a b k m q) = pattern b a q m k.
Proof.
  unfold pattern.
  rewrite !reverse_app, !reverse_replicate, reverse_alternating, <- app_assoc.
  reflexivity.
Qed.

Lemma pattern_nonempty a b k m q : 0 < k + m + q -> pattern a b k m q <> [].
Proof.
  unfold pattern. intros H E. apply (f_equal length) in E.
  rewrite !length_app, !length_replicate in E. simpl in E.
  destruct m; simpl in E; lia.
Qed.

Lemma forward_pass_pattern k m q c :
  forward_pass (pattern DISK_DARK DISK_LIGHT k (S m) q, c)
  = Ret (pattern DISK_DARK DISK_LIGHT (S k) m (S q), c + S m).
Proof.
  rewrite forward_pass_scan by (apply pattern_nonempty; lia).
  now rewrite scan_pattern_step.
Qed.

Lemma backward_pass_pattern k m q c :
  backward_pass (pattern DISK_DARK DISK_LIGHT k (S m) q, c)
  = Ret (pattern DISK_DARK DISK_LIGHT (S k) m (S q), c + S m).
Proof.
  rewrite backward_pass_scan by (apply pattern_nonempty; lia).
  rewrite reverse_pattern, scan_pattern_step by discriminate.
  cbn [fst snd]. now rewrite reverse_pattern.
Qed.

Lemma backward_pass_pattern_done k q c :
  0 < k + q ->
  backward_pass (pattern DISK_DARK DISK_LIGHT k 0 q, c)
  = Ret (pattern DISK_DARK DISK_LIGHT k 0 q, c).
Proof.
  intros H. rewrite backward_pass_scan by (apply pattern_nonempty; lia).
  rewrite reverse_pattern, scan_pattern_done by discriminate.
  cbn [fst snd]. now rewrite reverse_pattern, Nat.add_0_r.
Qed.

(** ** get, swap and is_sorted *)

Ltac width_lia :=
  unfold fits_unsigned, fits_size, uint_add, size_mul, UINT_MAX, SIZE_MAX,
    light_count, total_count in *;
  lia.

Lemma get_lookup (d : list disk_color) i :
  get d i = match d !! i with Some c => Ret c | None => AssertFail end.
Proof.
  unfold get, is_index, total_count.
  destruct (Nat.ltb_spec i (length d)) as [Hlt|Hge]; simpl; [reflexivity|].
  now rewrite lookup_ge_None_2.
Qed.

Lemma get_Ret (d : list disk_color) i c : get d i = Ret c <-> d !! i = Some c.
Proof.
  rewrite get_lookup. destruct (d !! i); split; congruence.
Qed.

Lemma uint_add_small i k : (i + k <= UINT_MAX)%N -> uint_add i k = (i + k)%N.
Proof. intros H. unfold uint_add. apply N.mod_small. width_lia. Qed.

Lemma uint_add_bound i k : (uint_add i k <= UINT_MAX)%N.
Proof.
  unfold uint_add.
  pose proof (N.mod_upper_bound (i + k) (UINT_MAX + 1)) as H. width_lia.
Qed.

Lemma half_le_length (d : list disk_color) : length d / 2 <= length d.
Proof. apply Nat.Div0.div_le_upper_bound. lia. Qed.

(** The loop of [is_sorted] reads below [total_count() / 2] only. *)
Lemma is_sorted_loop_no_abort (d : list disk_color) fuel : forall i s,
  is_sorted_loop fuel i s d <> AssertFail.
Proof.
  induction fuel as [|fuel IH]; intros i s; cbn [is_sorted_loop];
    [discriminate|].
  unfold total_count.
  destruct (N.ltb_spec i (N.of_nat (length d / 2))) as [Hlt|Hge];
    [|discriminate].
  pose proof (half_le_length d) as Hh.
  rewrite get_lookup.
  destruct (lookup_lt_is_Some_2 d (N.to_nat i) ltac:(lia)) as [c ->].
  cbn [cbind]. destruct c; [apply IH|discriminate].
Qed.

Lemma is_sorted_no_abort (d : list disk_color) : is_sorted d <> AssertFail.
Proof. apply is_sorted_loop_no_abort. Qed.

(** While the counter does not wrap the loop is the scan of the first
    half. *)
Lemma is_sorted_loop_exact (d : list disk_color) fuel : forall (i : nat) s,
  fits_unsigned (length d / 2) ->
  i <= length d / 2 -> length d / 2 - i < fuel ->
  (forall j, j < i -> d !! j = Some DISK_LIGHT) ->
  (s = true <-> 0 < i) ->
  exists b, is_sorted_loop fuel (N.of_nat i) s d = Ret b /\
    (b = true <->
     0 < length d / 2 /\
     forall j, j < length d / 2 -> d !! j = Some DISK_LIGHT).
Proof.
  induction fuel as [|fuel IH]; intros i s Hfit Hi Hfuel Hpre Hs; [lia|].
  cbn [is_sorted_loop]. unfold total_count.
  pose proof (half_le_length d) as Hh.
  destruct (N.ltb_spec (N.of_nat i) (N.of_nat (length d / 2))) as [Hlt|Hge].
  - rewrite Nat2N.id, get_lookup.
    destruct (lookup_lt_is_Some_2 d i ltac:(lia)) as [c Hc]. rewrite Hc.
    cbn [cbind]. destruct c.
    + rewrite uint_add_small by width_lia.
      replace (N.of_nat i + 1)%N with (N.of_nat (S i)) by lia.
      apply IH; [exact Hfit|lia|lia| |split; [lia|reflexivity]].
      intros j Hj. destruct (decide (j = i)) as [-> | Hne]; [exact Hc|].
      apply Hpre. lia.
    + exists false. split; [reflexivity|]. split; [discriminate|].
      intros [_ Hall]. specialize (Hall i ltac:(lia)). congruence.
  - assert (i = length d / 2) as -> by lia.
    exists s. split; [reflexivity|]. rewrite Hs. split.
    + intros Hpos. split; assumption.
    + tauto.
Qed.

(** Once [total_count() / 2] exceeds [UINT_MAX] the loop condition never
    fails, so the loop cannot return the flag. *)
Lemma is_sorted_loop_never_true (d : list disk_color) fuel : forall i s,
  (UINT_MAX < N.of_nat (length d / 2))%N -> (i <= UINT_MAX)%N ->
  is_sorted_loop fuel i s d <> Ret true.
Proof.
  induction fuel as [|fuel IH]; intros i s Hbig Hi; cbn [is_sorted_loop];
    [discriminate|].
  unfold total_count.
  destruct (N.ltb_spec i (N.of_nat (length d / 2))) as [Hlt|Hge]; [|lia].
  destruct (get d (N.to_nat i)) as [[|]| |]; cbn [cbind]; try discriminate.
  apply IH; [exact Hbig|apply uint_add_bound].
Qed.

Lemma is_sorted_spec (d : list disk_color) :
  fits_unsigned (length d / 2) ->
  exists b, is_sorted d = Ret b /\
    (b = true <->
     0 < length d / 2 /\ forall j, j < length d / 2 -> d !! j = Some DISK_LIGHT).
Proof.
  intros Hfit. unfold is_sorted, total_count.
  apply (is_sorted_loop_exact d _ 0 false); [exact Hfit|lia|lia| |].
  - intros j Hj. lia.
  - split; [discriminate|lia].
Qed.

Lemma is_sorted_true (d : list disk_color) :
  is_sorted d = Ret true <->
  0 < length d / 2 /\ fits_unsigned (length d / 2) /\
  forall j, j < length d / 2 -> d !! j = Some DISK_LIGHT.
Proof.
  destruct (N.le_gt_cases (N.of_nat (length d / 2)) UINT_MAX) as [Hfit|Hbig].
  - destruct (is_sorted_spec d Hfit) as (b & Hb & Hiff). rewrite Hb. split.
    + intros [= ->]. destruct Hiff as [Hall _].
      destruct (Hall eq_refl). repeat split; assumption.
    + intros (H1 & _ & H2). f_equal. apply Hiff. now split.
  - split.
    + intros H. exfalso. revert H.
      apply is_sorted_loop_never_true; [exact Hbig|width_lia].
    + intros (_ & Hfit & _). width_lia.
Qed.

Lemma is_sorted_false (d : list disk_color) j :
  fits_unsigned (length d / 2) ->
  j < length d / 2 -> d !! j = Some DISK_DARK -> is_sorted d = Ret false.
Proof.
  intros Hfit Hj Hd. destruct (is_sorted_spec d Hfit) as (b & Hb & Hiff).
  destruct b; [|exact Hb].
  destruct Hiff as [Hall _]. destruct (Hall eq_refl) as [_ Hl].
  rewrite (Hl j Hj) in Hd. discriminate.
Qed.

(** A row whose first disk is dark is reported unsorted at once. *)
Lemma is_sorted_dark_head (d : list disk_color) :
  0 < length d / 2 -> d !! 0 = Some DISK_DARK -> is_sorted d = Ret false.
Proof.
  intros Hpos Hd. unfold is_sorted. cbn [is_sorted_loop]. unfold total_count.
  destruct (N.ltb_spec 0 (N.of_nat (length d / 2))) as [_|Hge]; [|lia].
  change (N.to_nat 0) with 0. rewrite get_lookup, Hd. reflexivity.
Qed.

Lemma is_sorted_loop_false_inv (d : list disk_color) fuel : forall i s,
  is_sorted_loop fuel i s d = Ret false ->
  (exists j, j < length d / 2 /\ d !! j = Some DISK_DARK) \/
  (s = false /\ (N.of_nat (length d / 2) <= i)%N).
Proof.
  induction fuel as [|fuel IH]; intros i s; cbn [is_sorted_loop];
    [discriminate|].
  unfold total_count.
  destruct (N.ltb_spec i (N.of_nat (length d / 2))) as [Hlt|Hge].
  - rewrite get_lookup. destruct (d !! N.to_nat i) as [[|]|] eqn:Hc;
      cbn [cbind]; try discriminate.
    + intros H. destruct (IH _ _ H) as [Hex|[Hs _]]; [now left|discriminate].
    + intros _. left. exists (N.to_nat i). split; [lia|exact Hc].
  - intros [= ->]. now right.
Qed.

Lemma is_sorted_false_inv (d : list disk_color) :
  is_sorted d = Ret false ->
  length d / 2 = 0 \/ exists j, j < length d / 2 /\ d !! j = Some DISK_DARK.
Proof.
  intros H. apply is_sorted_loop_false_inv in H as [Hex|[_ Hle]];
    [now right|left; lia].
Qed.

Lemma length_alternating a b m : length (alternating a b m) = m * 2.
Proof. induction m as [|m IH]; simpl; [reflexivity|]. now rewrite IH. Qed.

Lemma length_pattern a b k m q : length (pattern a b k m q) = k + m * 2 + q.
Proof.
  unfold pattern.
  rewrite !length_app, !length_replicate, length_alternating. lia.
Qed.

Lemma length_sorted_row n : length (sorted_row n) = n * 2.
Proof. unfold sorted_row. rewrite length_app, !length_replicate. lia. Qed.

Lemma sorted_row_light n i : i < n -> sorted_row n !! i = Some DISK_LIGHT.
Proof.
  intros Hi. unfold sorted_row.
  rewrite lookup_app_l by (rewrite length_replicate; lia).
  now apply lookup_replicate_2.
Qed.

Lemma sorted_row_dark n i :
  n <= i -> i < n * 2 -> sorted_row n !! i = Some DISK_DARK.
Proof.
  intros H1 H2. unfold sorted_row.
  rewrite lookup_app_r by (rewrite length_replicate; lia).
  rewrite length_replicate. apply lookup_replicate_2. lia.
Qed.

Lemma is_sorted_sorted_row n :
  1 <= n -> fits_unsigned n -> is_sorted (sorted_row n) = Ret true.
Proof.
  intros Hn Hfit. apply is_sorted_true. rewrite length_sorted_row.
  rewrite Nat.div_mul by lia. split; [lia|]. split; [exact Hfit|].
  apply sorted_row_light.
Qed.

Lemma pattern_done k :
  pattern DISK_DARK DISK_LIGHT k 0 k = sorted_row k.
Proof. reflexivity. Qed.

Lemma half_pattern a b k m : length (pattern a b k m k) / 2 = k + m.
Proof.
  rewrite length_pattern.
  replace (k + m * 2 + k) with ((k + m) * 2) by lia.
  apply Nat.div_mul. discriminate.
Qed.

Lemma is_sorted_pattern_false k m :
  fits_unsigned (k + S m) ->
  is_sorted (pattern DISK_DARK DISK_LIGHT k (S m) k) = Ret false.
Proof.
  intros Hfit. apply (is_sorted_false _ k).
  - now rewrite half_pattern.
  - rewrite half_pattern. lia.
  - unfold pattern. cbn [alternating app].
    apply list_lookup_middle. now rewrite length_replicate.
Qed.
(** ** The constructor builds the canonical row *)

Lemma insert_middle (pre : list disk_color) x y l :
  <[length pre := y]> (pre ++ x :: l) = pre ++ y :: l.
Proof.
  induction pre as [|z pre IH]; simpl; [reflexivity|]. now rewrite IH.
Qed.

Lemma paint_dark_replicate m : forall pre fuel,
  m <= fuel ->
  paint_dark fuel (length pre) (pre ++ replicate (m * 2) DISK_LIGHT)
  = pre ++ alternating DISK_DARK DISK_LIGHT m.
Proof.
  induction m as [|m IH]; intros pre fuel Hf.
  - destruct fuel; cbn [paint_dark Nat.mul replicate alternating];
      [reflexivity|].
    rewrite app_nil_r. now rewrite Nat.ltb_irrefl.
  - destruct fuel as [|fuel]; [lia|].
    cbn [paint_dark Nat.mul Nat.add replicate alternating].
    rewrite length_app. cbn [length].
    replace (length pre <? length pre + S (S (length (replicate (m * 2) DISK_LIGHT))))
      with true by (symmetry; apply Nat.ltb_lt; lia).
    rewrite insert_middle.
    specialize (IH (pre ++ [DISK_DARK; DISK_LIGHT]) fuel ltac:(lia)).
    rewrite length_app, <- !app_assoc in IH. exact IH.
Qed.

Lemma size_mul_half a :
  size_mul a 2 = ((a mod 9223372036854775808) * 2)%N.
Proof.
  unfold size_mul, SIZE_MAX.
  change (18446744073709551615 + 1)%N with (9223372036854775808 * 2)%N.
  apply N.Div0.mul_mod_distr_r.
Qed.

Lemma size_mul_two n :
  N.to_nat (size_mul (N.of_nat n) 2) = wrapped_pairs n * 2.
Proof.
  unfold wrapped_pairs. rewrite size_mul_half.
  rewrite N.div_mul by discriminate. lia.
Qed.

Lemma wrapped_pairs_fits n : fits_size (wrapped_pairs n * 2).
Proof.
  unfold fits_size. rewrite <- size_mul_two, N2Nat.id. unfold size_mul.
  pose proof (N.mod_upper_bound (N.of_nat n * 2) (SIZE_MAX + 1)) as H.
  width_lia.
Qed.

Lemma wrapped_pairs_small n : fits_size (n * 2) -> wrapped_pairs n = n.
Proof.
  intros Hfit. unfold wrapped_pairs, size_mul.
  rewrite N.mod_small by width_lia.
  rewrite N.div_mul by discriminate. lia.
Qed.

Lemma disk_state_new_wrapped n :
  1 <= n -> disk_state_new n = Ret (canonical (wrapped_pairs n)).
Proof.
  intros Hn. unfold disk_state_new.
  replace (0 <? n) with true by (symmetry; apply Nat.ltb_lt; lia).
  cbn [assert cbind]. f_equal. rewrite length_replicate, size_mul_two.
  apply (paint_dark_replicate (wrapped_pairs n) []). lia.
Qed.

Lemma disk_state_new_canonical n :
  1 <= n -> fits_size (n * 2) -> disk_state_new n = Ret (canonical n).
Proof.
  intros Hn Hfit. rewrite disk_state_new_wrapped by exact Hn.
  now rewrite wrapped_pairs_small.
Qed.

Lemma disk_state_new_zero : disk_state_new 0 = AssertFail.
Proof. reflexivity. Qed.

Lemma fits_unsigned_size n : fits_unsigned n -> fits_size (n * 2).
Proof. width_lia. Qed.

(** ** The counter of swaps *)

Lemma to_unsigned_int_of_increments k :
  to_unsigned (int_of_increments k) = (Z.of_nat k mod 2 ^ 32)%Z.
Proof.
  unfold to_unsigned, int_of_increments.
  rewrite Zminus_mod_idemp_l. f_equal. lia.
Qed.

Lemma triangle_S m : triangle (S m) = triangle m + S m.
Proof.
  unfold triangle.
  replace (S m * (S m + 1)) with (m * (m + 1) + S m * 2) by lia.
  apply Nat.div_add. discriminate.
Qed.

(** ** Sorting the rows [pattern k m k] *)

Lemma left_to_right_pattern m : forall k c fuel,
  1 <= k + m -> fits_unsigned (k + m) -> m <= fuel ->
  left_to_right_while fuel (pattern DISK_DARK DISK_LIGHT k m k, c)
  = Some (Ret (sorted_row (k + m), c + triangle m)).
Proof.
  induction m as [|m IH]; intros k c fuel Hk Hfit Hf.
  - rewrite pattern_done, !Nat.add_0_r in *.
    destruct fuel; cbn [left_to_right_while fst];
      now rewrite is_sorted_sorted_row by (lia || assumption).
  - destruct fuel as [|fuel]; [lia|].
    cbn [left_to_right_while fst].
    rewrite is_sorted_pattern_false by exact Hfit.
    rewrite forward_pass_pattern.
    rewrite IH by (lia || width_lia). rewrite triangle_S.
    replace (S k + m) with (k + S m) by lia.
    now replace (c + S m + triangle m) with (c + (triangle m + S m)) by lia.
Qed.

Lemma lawnmower_pattern m : forall k c fuel,
  1 <= k + m -> fits_unsigned (k + m) -> m <= fuel ->
  lawnmower_while fuel (pattern DISK_DARK DISK_LIGHT k m k, c)
  = Some (Ret (sorted_row (k + m), c + triangle m)).
Proof.
  induction m as [m IH] using lt_wf_ind; intros k c fuel Hk Hfit Hf.
  destruct m as [|[|m]].
  - rewrite pattern_done, !Nat.add_0_r in *.
    destruct fuel; cbn [lawnmower_while fst];
      now rewrite is_sorted_sorted_row by (lia || assumption).
  - destruct fuel as [|fuel]; [lia|].
    cbn [lawnmower_while fst].
    rewrite is_sorted_pattern_false by exact Hfit.
    rewrite forward_pass_pattern. cbn [cbind].
    rewrite backward_pass_pattern_done by lia.
    rewrite (IH 0) by (lia || width_lia).
    replace (S k + 0) with (k + 1) by lia.
    change (triangle 0) with 0. change (triangle 1) with 1.
    now rewrite Nat.add_0_r.
  - destruct fuel as [|fuel]; [lia|].
    cbn [lawnmower_while fst].
    rewrite is_sorted_pattern_false by exact Hfit.
    rewrite forward_pass_pattern. cbn [cbind].
    rewrite backward_pass_pattern.
    rewrite (IH m) by (lia || width_lia). rewrite !triangle_S.
    replace (S (S k) + m) with (k + S (S m)) by lia.
    now replace (c + S (S m) + S m + triangle m)
      with (c + (triangle m + S m + S (S m))) by lia.
Qed.

Lemma canonical_pattern n : canonical n = pattern DISK_DARK DISK_LIGHT 0 n 0.
Proof. unfold canonical, pattern. simpl. now rewrite app_nil_r. Qed.

Lemma left_to_right_canonical n fuel :
  1 <= n -> fits_unsigned n -> n <= fuel ->
  left_to_right_while fuel (canonical n, 0)
  = Some (Ret (sorted_row n, triangle n)).
Proof.
  intros Hn Hfit Hf. rewrite canonical_pattern.
  now rewrite left_to_right_pattern by (lia || assumption).
Qed.

Lemma lawnmower_canonical n fuel :
  1 <= n -> fits_unsigned n -> n <= fuel ->
  lawnmower_while fuel (canonical n, 0)
  = Some (Ret (sorted_row n, triangle n)).
Proof.
  intros Hn Hfit Hf. rewrite canonical_pattern.
  now rewrite lawnmower_pattern by (lia || assumption).
Qed.

(** ** swap *)

Lemma swap_Ret (d d' : list disk_color) i :
  swap d i = Ret d' <-> i + 1 < length d /\ d' = std_swap i (i + 1) d.
Proof.
  unfold swap, is_index, total_count.
  destruct (Nat.ltb_spec i (length d)) as [H1|H1]; cbn [assert cbind].
  - destruct (Nat.ltb_spec (i + 1) (length d)) as [H2|H2]; cbn [assert cbind].
    + split; [intros [= <-]; now split|intros [_ ->]; reflexivity].
    + split; [discriminate|lia].
  - split; [discriminate|lia].
Qed.

Lemma swap_AssertFail (d : list disk_color) i :
  swap d i = AssertFail <-> length d <= i + 1.
Proof.
  unfold swap, is_index, total_count.
  destruct (Nat.ltb_spec i (length d)) as [H1|H1]; cbn [assert cbind].
  - destruct (Nat.ltb_spec (i + 1) (length d)) as [H2|H2]; cbn [assert cbind].
    + split; [discriminate|lia].
    + split; [lia|reflexivity].
  - split; [lia|reflexivity].
Qed.

Lemma split_at_pair (d : list disk_color) : forall i,
  i + 1 < length d ->
  exists pre x y post, d = pre ++ x :: y :: post /\ length pre = i.
Proof.
  induction d as [|z d IH]; intros i Hi; [simpl in Hi; lia|].
  destruct i as [|i].
  - destruct d as [|y post]; [simpl in Hi; lia|].
    now exists [], z, y, post.
  - destruct (IH i) as (pre & x & y & post & -> & Hlen);
      [simpl in Hi; lia|].
    exists (z :: pre), x, y, post. split; [reflexivity|]. simpl. now rewrite Hlen.
Qed.

Lemma swap_inv (d d' : list disk_color) i :
  swap d i = Ret d' ->
  exists pre x y post,
    length pre = i /\ d = pre ++ x :: y :: post /\ d' = pre ++ y :: x :: post.
Proof.
  intros H. pose proof H as H'. apply swap_Ret in H' as [Hi _].
  destruct (split_at_pair d i Hi) as (pre & x & y & post & -> & Hlen).
  exists pre, x, y, post. split; [exact Hlen|]. split; [reflexivity|].
  subst i. rewrite swap_middle in H. congruence.
Qed.

Lemma swap_Permutation (d d' : list disk_color) i :
  swap d i = Ret d' -> d ≡ₚ d'.
Proof.
  intros H. destruct (swap_inv _ _ _ H) as (pre & x & y & post & _ & -> & ->).
  apply Permutation_app_head, perm_swap.
Qed.

Lemma swap_lookup (d d' : list disk_color) i :
  swap d i = Ret d' ->
  d' !! i = d !! (i + 1) /\ d' !! (i + 1) = d !! i /\
  forall j, j <> i -> j <> i + 1 -> d' !! j = d !! j.
Proof.
  intros H. destruct (swap_inv _ _ _ H) as (pre & x & y & post & Hl & -> & ->).
  subst i. split; [|split].
  - rewrite list_lookup_middle by reflexivity.
    replace (pre ++ x :: y :: post) with ((pre ++ [x]) ++ y :: post)
      by (now rewrite <- app_assoc).
    now rewrite list_lookup_middle by (rewrite length_app; reflexivity).
  - rewrite (list_lookup_middle pre (y :: post) x) by reflexivity.
    replace (pre ++ y :: x :: post) with ((pre ++ [y]) ++ x :: post)
      by (now rewrite <- app_assoc).
    now rewrite list_lookup_middle by (rewrite length_app; reflexivity).
  - intros j Hj1 Hj2.
    destruct (Nat.lt_ge_cases j (length pre)) as [Hlt|Hge].
    + now rewrite !lookup_app_l by exact Hlt.
    + rewrite !lookup_app_r by exact Hge.
      destruct (j - length pre) as [|[|r]] eqn:E; [lia|lia|reflexivity].
Qed.

(** ** Inversions under reversal *)

Lemma inversions_snoc a b l x :
  inversions a b (l ++ [x])
  = inversions a b l + (if decide (x = b) then count_color a l else 0).
Proof.
  induction l as [|y l IH].
  - simpl. repeat case_decide; lia.
  - cbn [app inversions count_color]. rewrite IH, count_color_app.
    cbn [count_color]. repeat case_decide; lia.
Qed.

Lemma inversions_reverse a b l :
  inversions a b (reverse l) = inversions b a l.
Proof.
  induction l as [|x l IH]; [reflexivity|].
  rewrite reverse_cons, inversions_snoc, IH. cbn [inversions].
  rewrite (count_color_Permutation a _ _ (reverse_Permutation l)). lia.
Qed.

(** ** What one pass does to an arbitrary non-empty row *)

Lemma forward_pass_facts (d : list disk_color) c :
  d <> [] ->
  exists d' s,
    forward_pass (d, c) = Ret (d', c + s) /\ d ≡ₚ d' /\
    inversions DISK_DARK DISK_LIGHT d' + s = inversions DISK_DARK DISK_LIGHT d /\
    (s = 0 -> inversions DISK_DARK DISK_LIGHT d = 0).
Proof.
  intros Hd.
  exists (fst (scan DISK_DARK DISK_LIGHT d)), (snd (scan DISK_DARK DISK_LIGHT d)).
  split; [now apply forward_pass_scan|].
  split; [apply scan_Permutation|].
  split; [now apply scan_inversions|now apply scan_progress].
Qed.

Lemma backward_pass_facts (d : list disk_color) c :
  d <> [] ->
  exists d' s,
    backward_pass (d, c) = Ret (d', c + s) /\ d ≡ₚ d' /\
    inversions DISK_DARK DISK_LIGHT d' + s = inversions DISK_DARK DISK_LIGHT d.
Proof.
  intros Hd.
  exists (reverse (fst (scan DISK_LIGHT DISK_DARK (reverse d)))),
         (snd (scan DISK_LIGHT DISK_DARK (reverse d))).
  split; [now apply backward_pass_scan|]. split.
  - rewrite reverse_Permutation, <- scan_Permutation.
    symmetry. apply reverse_Permutation.
  - rewrite inversions_reverse, scan_inversions by discriminate.
    apply inversions_reverse.
Qed.

Lemma forward_pass_empty c : forward_pass ([], c) = AssertFail.
Proof. reflexivity. Qed.

(** ** Balanced rows *)

Lemma count_color_alternating_fst a b m :
  a <> b -> count_color a (alternating a b m) = m.
Proof.
  intros Hab. induction m as [|m IH]; [reflexivity|].
  cbn [alternating count_color]. rewrite IH.
  repeat case_decide; congruence || lia.
Qed.

Lemma count_color_alternating_snd a b m :
  a <> b -> count_color b (alternating a b m) = m.
Proof.
  intros Hab. induction m as [|m IH]; [reflexivity|].
  cbn [alternating count_color]. rewrite IH.
  repeat case_decide; congruence || lia.
Qed.

Lemma balanced_Permutation (d d' : list disk_color) :
  d ≡ₚ d' -> balanced d -> balanced d'.
Proof.
  intros Hp [H1 H2]. unfold balanced.
  now rewrite <- !(count_color_Permutation _ _ _ Hp).
Qed.

Lemma balanced_nonempty (d : list disk_color) : balanced d -> d <> [].
Proof. intros [H1 _] ->. simpl in H1. lia. Qed.

Lemma disk_state_new_inv n d :
  disk_state_new n = Ret d -> 1 <= n /\ d = canonical (wrapped_pairs n).
Proof.
  intros H. destruct n as [|n]; [discriminate H|].
  rewrite disk_state_new_wrapped in H by lia.
  split; [lia|congruence].
Qed.

(** A reachable row holds as many light as dark disks and its length fits
    a [size_t]; it can be empty. *)
Lemma reachable_even (d : list disk_color) :
  reachable d ->
  count_color DISK_LIGHT d = count_color DISK_DARK d /\ fits_size (length d).
Proof.
  induction 1 as [n d Hnew|d i d' _ IH Hswap].
  - apply disk_state_new_inv in Hnew as [Hn ->]. unfold canonical.
    rewrite count_color_alternating_fst, count_color_alternating_snd
      by discriminate.
    split; [reflexivity|]. rewrite length_alternating.
    apply wrapped_pairs_fits.
  - pose proof (swap_Permutation _ _ _ Hswap) as Hp.
    rewrite <- !(count_color_Permutation _ _ _ Hp).
    now rewrite <- (Permutation_length Hp).
Qed.

Lemma reachable_balanced (d : list disk_color) :
  reachable d -> 0 < total_count d -> balanced d.
Proof.
  intros Hr Hpos. destruct (reachable_even d Hr) as [Heq _].
  pose proof (count_color_total d) as Ht. unfold total_count in Hpos.
  split; [lia|exact Heq].
Qed.

Lemma balanced_half (d : list disk_color) :
  balanced d -> length d / 2 = count_color DISK_LIGHT d.
Proof.
  intros [_ H2]. pose proof (count_color_total d) as Ht.
  replace (length d) with (count_color DISK_LIGHT d * 2) by lia.
  apply Nat.div_mul. discriminate.
Qed.

Lemma no_inversions_shape (d : list disk_color) :
  inversions DISK_DARK DISK_LIGHT d = 0 ->
  d = replicate (count_color DISK_LIGHT d) DISK_LIGHT
      ++ replicate (count_color DISK_DARK d) DISK_DARK.
Proof.
  induction d as [|x d IH]; [reflexivity|].
  cbn [inversions count_color]. intros H.
  destruct x.
  - rewrite decide_False in H by discriminate.
    rewrite decide_True by reflexivity. rewrite decide_False by discriminate.
    cbn [Nat.add replicate app]. f_equal. apply IH. lia.
  - rewrite decide_True in H by reflexivity.
    rewrite decide_False by discriminate. rewrite decide_True by reflexivity.
    assert (H0 : count_color DISK_LIGHT d = 0) by lia.
    specialize (IH ltac:(lia)). rewrite H0 in IH |- *.
    cbn [Nat.add replicate app] in *. now f_equal.
Qed.

Lemma balanced_no_inversions (d : list disk_color) :
  balanced d -> fits_unsigned (length d / 2) ->
  inversions DISK_DARK DISK_LIGHT d = 0 -> is_sorted d = Ret true.
Proof.
  intros Hb Hfit H0. rewrite (balanced_half d Hb) in Hfit.
  destruct Hb as [H1 H2].
  rewrite (no_inversions_shape d H0), <- H2.
  now apply is_sorted_sorted_row.
Qed.

(** ** Termination on balanced rows *)

Lemma left_to_right_terminates N : forall (d : list disk_color) c,
  balanced d -> fits_unsigned (length d / 2) ->
  inversions DISK_DARK DISK_LIGHT d <= N ->
  exists st,
    (forall fuel, N <= fuel -> left_to_right_while fuel (d, c) = Some (Ret st))
    /\ is_sorted (fst st) = Ret true.
Proof.
  induction N as [|N IH]; intros d c Hb Hfit Hinv;
    destruct (is_sorted_spec d Hfit) as ([|] & Hs & _).
  - exists (d, c). split; [|exact Hs].
    intros fuel _. destruct fuel; cbn [left_to_right_while fst]; now rewrite Hs.
  - rewrite balanced_no_inversions in Hs by (trivial; lia). discriminate.
  - exists (d, c). split; [|exact Hs].
    intros fuel _. destruct fuel; cbn [left_to_right_while fst]; now rewrite Hs.
  - destruct (forward_pass_facts d c (balanced_nonempty d Hb))
      as (d' & s & Hpass & Hperm & Hdec & Hprog).
    assert (s <> 0).
    { intros ->. rewrite balanced_no_inversions in Hs by auto. discriminate. }
    destruct (IH d' (c + s)) as (st & Hrun & Hst);
      [now apply (balanced_Permutation d)
      |now rewrite <- (Permutation_length Hperm)|lia|].
    exists st. split; [|exact Hst].
    intros [|fuel] Hf; [lia|].
    cbn [left_to_right_while fst]. rewrite Hs, Hpass. apply Hrun. lia.
Qed.

Lemma lawnmower_terminates N : forall (d : list disk_color) c,
  balanced d -> fits_unsigned (length d / 2) ->
  inversions DISK_DARK DISK_LIGHT d <= N ->
  exists st,
    (forall fuel, N <= fuel -> lawnmower_while fuel (d, c) = Some (Ret st))
    /\ is_sorted (fst st) = Ret true.
Proof.
  induction N as [|N IH]; intros d c Hb Hfit Hinv;
    destruct (is_sorted_spec d Hfit) as ([|] & Hs & _).
  - exists (d, c). split; [|exact Hs].
    intros fuel _. destruct fuel; cbn [lawnmower_while fst]; now rewrite Hs.
  - rewrite balanced_no_inversions in Hs by (trivial; lia). discriminate.
  - exists (d, c). split; [|exact Hs].
    intros fuel _. destruct fuel; cbn [lawnmower_while fst]; now rewrite Hs.
  - destruct (forward_pass_facts d c (balanced_nonempty d Hb))
      as (d1 & s1 & Hpass1 & Hperm1 & Hdec1 & Hprog).
    assert (s1 <> 0).
    { intros ->. rewrite balanced_no_inversions in Hs by auto. discriminate. }
    assert (Hb1 : balanced d1) by now apply (balanced_Permutation d).
    destruct (backward_pass_facts d1 (c + s1) (balanced_nonempty d1 Hb1))
      as (d2 & s2 & Hpass2 & Hperm2 & Hdec2).
    destruct (IH d2 (c + s1 + s2)) as (st & Hrun & Hst);
      [now apply (balanced_Permutation d1)
      |now rewrite <- (Permutation_length Hperm2), <- (Permutation_length Hperm1)
      |lia|].
    exists st. split; [|exact Hst].
    intros [|fuel] Hf; [lia|].
    cbn [lawnmower_while fst]. rewrite Hs, Hpass1. cbn [cbind].
    rewrite Hpass2. apply Hrun. lia.
Qed.

(** ** Whatever a sort returns is a rearrangement of its input *)

Lemma left_to_right_Permutation fuel : forall st st',
  left_to_right_while fuel st = Some (Ret st') -> fst st ≡ₚ fst st'.
Proof.
  induction fuel as [|fuel IH]; intros [d c] st'; cbn [left_to_right_while fst];
    destruct (is_sorted d) as [[|]| |]; try discriminate;
    try (intros [= <-]; reflexivity).
  destruct d as [|x l]; [rewrite forward_pass_empty; discriminate|].
  destruct (forward_pass_facts (x :: l) c) as (d' & s & -> & Hp & _);
    [discriminate|].
  intros H. apply IH in H. cbn [fst] in H. now rewrite Hp.
Qed.

Lemma lawnmower_Permutation fuel : forall st st',
  lawnmower_while fuel st = Some (Ret st') -> fst st ≡ₚ fst st'.
Proof.
  induction fuel as [|fuel IH]; intros [d c] st'; cbn [lawnmower_while fst];
    destruct (is_sorted d) as [[|]| |]; try discriminate;
    try (intros [= <-]; reflexivity).
  destruct d as [|x l]; [rewrite forward_pass_empty; discriminate|].
  destruct (forward_pass_facts (x :: l) c) as (d1 & s1 & -> & Hp1 & _);
    [discriminate|].
  cbn [cbind].
  assert (Hd1 : d1 <> []).
  { intros ->. apply Permutation_nil_r in Hp1. discriminate. }
  destruct (backward_pass_facts d1 (c + s1) Hd1) as (d2 & s2 & -> & Hp2 & _).
  intros H. apply IH in H. cbn [fst] in H. now rewrite Hp1, Hp2.
Qed.

(** ** Results of the two sorts on the canonical row *)

Lemma light_then_dark_sorted_row n : light_then_dark n (sorted_row n).
Proof.
  unfold light_then_dark, total_count. rewrite length_sorted_row.
  split; [lia|]. split.
  - intros i Hi. apply get_Ret. now apply sorted_row_light.
  - intros i H1 H2. apply get_Ret. apply sorted_row_dark; lia.
Qed.

Lemma sort_left_to_right_canonical n fuel :
  1 <= n -> fits_unsigned n -> n <= fuel ->
  sort_left_to_right fuel (canonical n)
  = Some (Ret (mk_sorted_disks (sorted_row n)
                 (Z.of_nat (triangle n) mod 2 ^ 32)%Z)).
Proof.
  intros Hn Hfit Hf. unfold sort_left_to_right.
  rewrite left_to_right_canonical by assumption.
  unfold finish, make_result. cbn [fst snd].
  now rewrite to_unsigned_int_of_increments.
Qed.

Lemma sort_lawnmower_canonical n fuel :
  1 <= n -> fits_unsigned n -> n <= fuel ->
  sort_lawnmower fuel (canonical n)
  = Some (Ret (mk_sorted_disks (sorted_row n)
                 (Z.of_nat (triangle n) mod 2 ^ 32)%Z)).
Proof.
  intros Hn Hfit Hf. unfold sort_lawnmower.
  rewrite lawnmower_canonical by assumption.
  unfold finish, make_result. cbn [fst snd].
  now rewrite to_unsigned_int_of_increments.
Qed.

Lemma inversions_app a b l1 l2 :
  inversions a b (l1 ++ l2)
  = inversions a b l1 + inversions a b l2 + count_color a l1 * count_color b l2.
Proof.
  induction l1 as [|x l1 IH]; [simpl; lia|].
  cbn [app inversions count_color]. rewrite IH, count_color_app.
  case_decide; lia.
Qed.

Lemma inversions_canonical n :
  inversions DISK_DARK DISK_LIGHT (canonical n) = triangle n.
Proof.
  unfold canonical. induction n as [|n IH]; [reflexivity|].
  rewrite triangle_S. cbn [alternating inversions count_color].
  rewrite IH, count_color_alternating_snd by discriminate.
  repeat case_decide; congruence || lia.
Qed.

Lemma swap_removes_inversion (d d' : list disk_color) i :
  d !! i = Some DISK_DARK -> d !! (i + 1) = Some DISK_LIGHT ->
  swap d i = Ret d' ->
  inversions DISK_DARK DISK_LIGHT d' + 1 = inversions DISK_DARK DISK_LIGHT d.
Proof.
  intros Hx Hy H.
  destruct (swap_inv _ _ _ H) as (pre & x & y & post & Hl & -> & ->).
  subst i. rewrite list_lookup_middle in Hx by reflexivity.
  replace (pre ++ x :: y :: post) with ((pre ++ [x]) ++ y :: post) in Hy
    by (now rewrite <- app_assoc).
  rewrite list_lookup_middle in Hy by (rewrite length_app; reflexivity).
  injection Hx as ->. injection Hy as ->.
  rewrite !inversions_app. cbn [inversions count_color].
  repeat case_decide; congruence || lia.
Qed.

(** * The properties of the specification *)

(** ** The row that the constructor builds when the product wraps *)

Lemma wrapping_pairs_positive : 1 <= wrapping_pairs.
Proof. unfold wrapping_pairs. lia. Qed.

Lemma wrapped_pairs_wrapping : wrapped_pairs wrapping_pairs = 0.
Proof.
  unfold wrapped_pairs, wrapping_pairs. rewrite N2Nat.id. reflexivity.
Qed.

Lemma disk_state_new_wrapping : disk_state_new wrapping_pairs = Ret [].
Proof.
  rewrite disk_state_new_wrapped by exact wrapping_pairs_positive.
  now rewrite wrapped_pairs_wrapping.
Qed.

Lemma left_to_right_while_empty fuel c :
  left_to_right_while fuel ([], c)
  = match fuel with 0 => None | S _ => Some AssertFail end.
Proof. destruct fuel; reflexivity. Qed.

Lemma lawnmower_while_empty fuel c :
  lawnmower_while fuel ([], c)
  = match fuel with 0 => None | S _ => Some AssertFail end.
Proof. destruct fuel; reflexivity. Qed.

Lemma sorts_empty fuel r :
  sort_left_to_right fuel [] <> Some (Ret r) /\
  sort_lawnmower fuel [] <> Some (Ret r).
Proof.
  unfold sort_left_to_right, sort_lawnmower.
  rewrite left_to_right_while_empty, lawnmower_while_empty.
  destruct fuel; split; discriminate.
Qed.

Lemma reachable_empty : reachable [].
Proof. exact (reach_new _ _ disk_state_new_wrapping). Qed.

(** C1, as stated, fails: for n = 2^63, which is at least 1, the product
    [light_count * 2] wraps to 0, the constructor builds the empty row,
    and no run of either algorithm on it returns a row. *)
Lemma sort_canonical_fails_when_wrapped :
  1 <= wrapping_pairs /\
  disk_state_new wrapping_pairs = Ret [] /\
  forall fuel r,
    sort_left_to_right fuel [] <> Some (Ret r) /\
    sort_lawnmower fuel [] <> Some (Ret r).
Proof.
  split; [exact wrapping_pairs_positive|].
  split; [exact disk_state_new_wrapping|]. apply sorts_empty.
Qed.

(** C1, amended: for every n with 1 <= n <= UINT_MAX the constructor
    builds the row DARK, LIGHT repeated n times, and on that row both
    [sort_left_to_right] and [sort_lawnmower] return (within n outer
    iterations) a row of length 2n whose first n disks are light and whose
    last n disks are dark, on which [is_sorted] is true. *)
Theorem sort_canonical_sorted n :
  1 <= n -> fits_unsigned n ->
  exists d,
    disk_state_new n = Ret d /\ d = alternating DISK_DARK DISK_LIGHT n /\
    forall fuel, n <= fuel ->
      exists r1 r2,
        sort_left_to_right fuel d = Some (Ret r1) /\
        sort_lawnmower fuel d = Some (Ret r2) /\
        light_then_dark n (after r1) /\ is_sorted (after r1) = Ret true /\
        light_then_dark n (after r2) /\ is_sorted (after r2) = Ret true.
Proof.
  intros Hn Hfit. exists (canonical n).
  split; [apply disk_state_new_canonical; [exact Hn|now apply fits_unsigned_size]|].
  split; [reflexivity|].
  intros fuel Hf. eexists _, _.
  split; [now apply sort_left_to_right_canonical|].
  split; [now apply sort_lawnmower_canonical|].
  cbn [after].
  pose proof (light_then_dark_sorted_row n).
  pose proof (is_sorted_sorted_row n Hn Hfit). tauto.
Qed.

Lemma sort_canonical_sorted_witness :
  1 <= 3 /\ fits_unsigned 3 /\
  exists d,
    disk_state_new 3 = Ret d /\ d = alternating DISK_DARK DISK_LIGHT 3 /\
    forall fuel, 3 <= fuel ->
      exists r1 r2,
        sort_left_to_right fuel d = Some (Ret r1) /\
        sort_lawnmower fuel d = Some (Ret r2) /\
        light_then_dark 3 (after r1) /\ is_sorted (after r1) = Ret true /\
        light_then_dark 3 (after r2) /\ is_sorted (after r2) = Ret true.
Proof.
  split; [lia|]. split; [unfold fits_unsigned, UINT_MAX; lia|].
  apply (sort_canonical_sorted 3); [lia|unfold fits_unsigned, UINT_MAX; lia].
Defined.

(** C2, as stated, fails: the empty row is reachable through the public
    interface (the constructor builds it for n = 2^63 >= 1), it holds no
    disk at all, and no run of either algorithm on it ends in a state
    where [is_sorted] is true: each run stops at the failing [get(0)]. *)
Lemma empty_row_never_sorted :
  1 <= wrapping_pairs /\
  disk_state_new wrapping_pairs = Ret [] /\
  reachable [] /\
  is_sorted [] = Ret false /\
  forall fuel st,
    left_to_right_while fuel ([], 0) <> Some (Ret st) /\
    lawnmower_while fuel ([], 0) <> Some (Ret st).
Proof.
  split; [exact wrapping_pairs_positive|].
  split; [exact disk_state_new_wrapping|].
  split; [exact reachable_empty|]. split; [reflexivity|].
  intros fuel st.
  rewrite left_to_right_while_empty, lawnmower_while_empty.
  destruct fuel; split; discriminate.
Qed.

(** C2, amended: every non-empty row reachable through the public
    interface whose [light_count] is at most UINT_MAX holds n light and n
    dark disks for some n >= 1, and on it the [while] loops of both
    algorithms stop after finitely many iterations in a state where
    [is_sorted] is true. *)
Theorem sorts_terminate d :
  reachable d -> 0 < total_count d -> fits_unsigned (light_count d) ->
  exists n,
    1 <= n /\ total_count d = 2 * n /\
    count_color DISK_LIGHT d = n /\ count_color DISK_DARK d = n /\
    exists passes r1 r2,
      (forall fuel, passes <= fuel -> sort_left_to_right fuel d = Some (Ret r1)) /\
      is_sorted (after r1) = Ret true /\
      (forall fuel, passes <= fuel -> sort_lawnmower fuel d = Some (Ret r2)) /\
      is_sorted (after r2) = Ret true.
Proof.
  intros Hr Hpos Hfit. pose proof (reachable_balanced d Hr Hpos) as Hb.
  exists (count_color DISK_LIGHT d). destruct Hb as [H1 H2].
  split; [exact H1|].
  split; [unfold total_count; rewrite <- count_color_total; lia|].
  split; [reflexivity|]. split; [now rewrite H2|].
  destruct (left_to_right_terminates _ d 0 (conj H1 H2) Hfit (Nat.le_refl _))
    as (st1 & Hrun1 & Hs1).
  destruct (lawnmower_terminates _ d 0 (conj H1 H2) Hfit (Nat.le_refl _))
    as (st2 & Hrun2 & Hs2).
  exists (inversions DISK_DARK DISK_LIGHT d), (make_result st1), (make_result st2).
  split; [|split; [exact Hs1|split; [|exact Hs2]]].
  - intros fuel Hf. unfold sort_left_to_right. now rewrite Hrun1.
  - intros fuel Hf. unfold sort_lawnmower. now rewrite Hrun2.
Qed.

Lemma sorts_terminate_witness :
  reachable [DISK_LIGHT; DISK_DARK; DISK_DARK; DISK_LIGHT] /\
  0 < total_count [DISK_LIGHT; DISK_DARK; DISK_DARK; DISK_LIGHT] /\
  fits_unsigned (light_count [DISK_LIGHT; DISK_DARK; DISK_DARK; DISK_LIGHT]) /\
  exists n,
    1 <= n /\ total_count [DISK_LIGHT; DISK_DARK; DISK_DARK; DISK_LIGHT] = 2 * n /\
    count_color DISK_LIGHT [DISK_LIGHT; DISK_DARK; DISK_DARK; DISK_LIGHT] = n /\
    count_color DISK_DARK [DISK_LIGHT; DISK_DARK; DISK_DARK; DISK_LIGHT] = n /\
    exists passes r1 r2,
      (forall fuel, passes <= fuel ->
         sort_left_to_right fuel [DISK_LIGHT; DISK_DARK; DISK_DARK; DISK_LIGHT]
         = Some (Ret r1)) /\
      is_sorted (after r1) = Ret true /\
      (forall fuel, passes <= fuel ->
         sort_lawnmower fuel [DISK_LIGHT; DISK_DARK; DISK_DARK; DISK_LIGHT]
         = Some (Ret r2)) /\
      is_sorted (after r2) = Ret true.
Proof.
  assert (Hr : reachable [DISK_LIGHT; DISK_DARK; DISK_DARK; DISK_LIGHT]).
  { apply (reach_swap [DISK_DARK; DISK_LIGHT; DISK_DARK; DISK_LIGHT] 0).
    - apply (reach_new 2). reflexivity.
    - reflexivity. }
  split; [exact Hr|]. split; [simpl; lia|].
  split; [vm_compute; discriminate|].
  apply sorts_terminate; [exact Hr|simpl; lia|vm_compute; discriminate].
Defined.

(** C3, as stated, fails: for n = 2^63 the constructor builds the empty
    row, on which neither algorithm returns, so there are no two swap
    counts to compare. *)
Lemma no_swap_counts_when_wrapped :
  1 <= wrapping_pairs /\
  exists d,
    disk_state_new wrapping_pairs = Ret d /\
    forall fuel r,
      sort_left_to_right fuel d <> Some (Ret r) /\
      sort_lawnmower fuel d <> Some (Ret r).
Proof.
  split; [exact wrapping_pairs_positive|]. exists [].
  split; [exact disk_state_new_wrapping|]. apply sorts_empty.
Qed.

(** C3, amended: for every n with 1 <= n <= UINT_MAX,
    [sort_left_to_right] and [sort_lawnmower] applied to the row built by
    the constructor return equal swap counts. *)
Theorem equal_swap_counts n :
  1 <= n -> fits_unsigned n ->
  exists d,
    disk_state_new n = Ret d /\
    forall fuel, n <= fuel ->
      exists r1 r2,
        sort_left_to_right fuel d = Some (Ret r1) /\
        sort_lawnmower fuel d = Some (Ret r2) /\
        swap_count r1 = swap_count r2.
Proof.
  intros Hn Hfit. exists (canonical n).
  split; [apply disk_state_new_canonical; [exact Hn|now apply fits_unsigned_size]|].
  intros fuel Hf. eexists _, _.
  split; [now apply sort_left_to_right_canonical|].
  split; [now apply sort_lawnmower_canonical|reflexivity].
Qed.

Lemma equal_swap_counts_witness :
  1 <= 4 /\ fits_unsigned 4 /\
  exists d,
    disk_state_new 4 = Ret d /\
    forall fuel, 4 <= fuel ->
      exists r1 r2,
        sort_left_to_right fuel d = Some (Ret r1) /\
        sort_lawnmower fuel d = Some (Ret r2) /\
        swap_count r1 = swap_count r2.
Proof.
  split; [lia|]. split; [unfold fits_unsigned, UINT_MAX; lia|].
  apply (equal_swap_counts 4); [lia|unfold fits_unsigned, UINT_MAX; lia].
Defined.

(** C4, as stated, fails: on the row DARK, LIGHT, DARK, LIGHT built for
    n = 2, no run of [sort_left_to_right] returns a swap count of 2. *)
Lemma n2_swap_count_is_not_2 :
  ~ exists fuel d r,
      disk_state_new 2 = Ret d /\
      sort_left_to_right fuel d = Some (Ret r) /\
      after r = [DISK_LIGHT; DISK_LIGHT; DISK_DARK; DISK_DARK] /\
      swap_count r = 2%Z.
Proof.
  intros (fuel & d & r & Hd & Hs & _ & Hc).
  vm_compute in Hd. injection Hd as <-.
  destruct fuel as [|[|[|fuel]]]; vm_compute in Hs;
    try discriminate Hs; injection Hs as <-; discriminate Hc.
Qed.

(** C4, amended: for n = 2 the constructor builds DARK, LIGHT, DARK, LIGHT;
    [sort_left_to_right] returns LIGHT, LIGHT, DARK, DARK with a swap count
    of 3, and [sort_lawnmower] returns the same row and the same count. *)
Theorem n2_three_swaps :
  disk_state_new 2 = Ret [DISK_DARK; DISK_LIGHT; DISK_DARK; DISK_LIGHT] /\
  forall fuel, 2 <= fuel ->
    sort_left_to_right fuel [DISK_DARK; DISK_LIGHT; DISK_DARK; DISK_LIGHT]
    = Some (Ret (mk_sorted_disks
                   [DISK_LIGHT; DISK_LIGHT; DISK_DARK; DISK_DARK] 3)) /\
    sort_lawnmower fuel [DISK_DARK; DISK_LIGHT; DISK_DARK; DISK_LIGHT]
    = Some (Ret (mk_sorted_disks
                   [DISK_LIGHT; DISK_LIGHT; DISK_DARK; DISK_DARK] 3)).
Proof.
  split; [reflexivity|]. intros fuel Hf.
  change [DISK_DARK; DISK_LIGHT; DISK_DARK; DISK_LIGHT] with (canonical 2).
  rewrite sort_left_to_right_canonical, sort_lawnmower_canonical
    by (lia || width_lia).
  split; reflexivity.
Qed.

Lemma n2_three_swaps_witness :
  2 <= 2 /\
  sort_left_to_right 2 [DISK_DARK; DISK_LIGHT; DISK_DARK; DISK_LIGHT]
  = Some (Ret (mk_sorted_disks
                 [DISK_LIGHT; DISK_LIGHT; DISK_DARK; DISK_DARK] 3)) /\
  sort_lawnmower 2 [DISK_DARK; DISK_LIGHT; DISK_DARK; DISK_LIGHT]
  = Some (Ret (mk_sorted_disks
                 [DISK_LIGHT; DISK_LIGHT; DISK_DARK; DISK_DARK] 3)).
Proof.
  split; [lia|]. apply n2_three_swaps. lia.
Defined.

(** C5: for n = 1 the constructor builds DARK, LIGHT, and both algorithms
    perform exactly 1 swap and return LIGHT, DARK. *)
Theorem n1_one_swap :
  disk_state_new 1 = Ret [DISK_DARK; DISK_LIGHT] /\
  forall fuel, 1 <= fuel ->
    left_to_right_while fuel ([DISK_DARK; DISK_LIGHT], 0)
    = Some (Ret ([DISK_LIGHT; DISK_DARK], 1)) /\
    lawnmower_while fuel ([DISK_DARK; DISK_LIGHT], 0)
    = Some (Ret ([DISK_LIGHT; DISK_DARK], 1)) /\
    sort_left_to_right fuel [DISK_DARK; DISK_LIGHT]
    = Some (Ret (mk_sorted_disks [DISK_LIGHT; DISK_DARK] 1)) /\
    sort_lawnmower fuel [DISK_DARK; DISK_LIGHT]
    = Some (Ret (mk_sorted_disks [DISK_LIGHT; DISK_DARK] 1)).
Proof.
  split; [reflexivity|]. intros fuel Hf.
  change [DISK_DARK; DISK_LIGHT] with (canonical 1).
  rewrite sort_left_to_right_canonical, sort_lawnmower_canonical
    by (lia || width_lia).
  rewrite left_to_right_canonical, lawnmower_canonical by (lia || width_lia).
  repeat split; reflexivity.
Qed.

Lemma n1_one_swap_witness :
  1 <= 1 /\
  left_to_right_while 1 ([DISK_DARK; DISK_LIGHT], 0)
  = Some (Ret ([DISK_LIGHT; DISK_DARK], 1)) /\
  lawnmower_while 1 ([DISK_DARK; DISK_LIGHT], 0)
  = Some (Ret ([DISK_LIGHT; DISK_DARK], 1)) /\
  sort_left_to_right 1 [DISK_DARK; DISK_LIGHT]
  = Some (Ret (mk_sorted_disks [DISK_LIGHT; DISK_DARK] 1)) /\
  sort_lawnmower 1 [DISK_DARK; DISK_LIGHT]
  = Some (Ret (mk_sorted_disks [DISK_LIGHT; DISK_DARK] 1)).
Proof.
  split; [lia|]. apply n1_one_swap. lia.
Defined.

(** C6: on a row on which [is_sorted] is already true, both algorithms
    return a swap count of 0 and the row itself, whatever the bound on
    iterations. *)
Theorem sorted_input_unchanged (d : list disk_color) fuel :
  is_sorted d = Ret true ->
  sort_left_to_right fuel d = Some (Ret (mk_sorted_disks d 0)) /\
  sort_lawnmower fuel d = Some (Ret (mk_sorted_disks d 0)).
Proof.
  intros Hs. unfold sort_left_to_right, sort_lawnmower.
  destruct fuel; cbn [left_to_right_while lawnmower_while fst];
    rewrite Hs; split; reflexivity.
Qed.

Lemma sorted_input_unchanged_witness :
  is_sorted [DISK_LIGHT; DISK_LIGHT; DISK_DARK; DISK_DARK] = Ret true /\
  sort_left_to_right 0 [DISK_LIGHT; DISK_LIGHT; DISK_DARK; DISK_DARK]
  = Some (Ret (mk_sorted_disks [DISK_LIGHT; DISK_LIGHT; DISK_DARK; DISK_DARK] 0)) /\
  sort_lawnmower 0 [DISK_LIGHT; DISK_LIGHT; DISK_DARK; DISK_DARK]
  = Some (Ret (mk_sorted_disks [DISK_LIGHT; DISK_LIGHT; DISK_DARK; DISK_DARK] 0)).
Proof.
  split; [reflexivity|]. apply sorted_input_unchanged. reflexivity.
Defined.

(** C7: the constructor fails exactly when n = 0; [get] fails exactly when
    the index is at least [total_count]; [swap] fails exactly when the left
    index or its successor is at least [total_count], so that on a row of
    at least two disks it succeeds exactly when the index is at most
    [total_count - 2]. *)
Theorem failures_are_preconditions :
  (forall n, disk_state_new n = AssertFail <-> n = 0) /\
  (forall (d : list disk_color) i, get d i = AssertFail <-> total_count d <= i) /\
  (forall (d : list disk_color) i,
     swap d i = AssertFail <-> total_count d <= i \/ total_count d <= i + 1) /\
  (forall (d : list disk_color) i,
     2 <= total_count d ->
     ((exists d', swap d i = Ret d') <-> i <= total_count d - 2)).
Proof.
  split; [|split; [|split]].
  - intros n. destruct n as [|n].
    + split; reflexivity.
    + rewrite disk_state_new_wrapped by lia. split; [discriminate|lia].
  - intros d i. rewrite get_lookup. unfold total_count.
    rewrite <- lookup_ge_None. destruct (d !! i); split; congruence.
  - intros d i. rewrite swap_AssertFail. unfold total_count. lia.
  - intros d i Hd. unfold total_count in *. split.
    + intros [d' H]. apply swap_Ret in H. lia.
    + intros Hi. exists (std_swap i (i + 1) d). apply swap_Ret. split; [lia|reflexivity].
Qed.

Lemma failures_are_preconditions_witness :
  2 <= total_count [DISK_DARK; DISK_LIGHT; DISK_DARK; DISK_LIGHT] /\
  ((exists d', swap [DISK_DARK; DISK_LIGHT; DISK_DARK; DISK_LIGHT] 3 = Ret d')
   <-> 3 <= total_count [DISK_DARK; DISK_LIGHT; DISK_DARK; DISK_LIGHT] - 2).
Proof.
  split; [simpl; lia|].
  destruct failures_are_preconditions as (_ & _ & _ & H).
  apply H. simpl. lia.
Defined.

(** ** Rows whose first half the counter of [is_sorted] cannot count *)

Lemma uncounted_pairs_big : ~ fits_unsigned uncounted_pairs.
Proof.
  unfold fits_unsigned, uncounted_pairs. rewrite N2Nat.id. vm_compute. tauto.
Qed.

Lemma uncounted_pairs_positive : 0 < uncounted_pairs.
Proof. unfold uncounted_pairs. lia. Qed.

Lemma half_sorted_row n : length (sorted_row n) / 2 = n.
Proof. rewrite length_sorted_row. apply Nat.div_mul. discriminate. Qed.

(** C8, as stated, fails: on the row of 2^32 light disks followed by 2^32
    dark disks, which has even length, is not empty and has a light disk
    at every index below [total_count / 2], [is_sorted] does not return
    true: its 32-bit counter wraps to 0 before it reaches 2^32. *)
Lemma is_sorted_misses_long_row :
  Nat.even (total_count (sorted_row uncounted_pairs)) = true /\
  0 < total_count (sorted_row uncounted_pairs) /\
  (forall i, i < total_count (sorted_row uncounted_pairs) / 2 ->
     get (sorted_row uncounted_pairs) i = Ret DISK_LIGHT) /\
  is_sorted (sorted_row uncounted_pairs) <> Ret true.
Proof.
  unfold total_count. rewrite half_sorted_row, length_sorted_row.
  pose proof uncounted_pairs_positive as Hpos.
  split; [rewrite Nat.even_mul; apply Bool.orb_true_r|].
  split; [lia|]. split.
  - intros i Hi. apply get_Ret. now apply sorted_row_light.
  - intros H. apply is_sorted_true in H as (_ & Hfit & _).
    rewrite half_sorted_row in Hfit. exact (uncounted_pairs_big Hfit).
Qed.

(** C8, amended: on a row of even length (every row the class can hold has
    [light_count * 2] disks), [is_sorted] returns true exactly when the
    row is non-empty, [total_count / 2] is at most UINT_MAX and every disk
    at the indices below [total_count / 2] is light; whenever
    [total_count / 2] is at most UINT_MAX it returns a boolean, and on the
    empty row it returns false. *)
Theorem is_sorted_characterisation (d : list disk_color) :
  Nat.even (total_count d) = true ->
  (is_sorted d = Ret true <->
   0 < total_count d /\ fits_unsigned (total_count d / 2) /\
   forall i, i < total_count d / 2 -> get d i = Ret DISK_LIGHT) /\
  (fits_unsigned (total_count d / 2) -> exists b, is_sorted d = Ret b) /\
  is_sorted [] = Ret false.
Proof.
  intros Heven. split; [|split; [|reflexivity]].
  - rewrite is_sorted_true. unfold total_count in *.
    apply Nat.even_spec in Heven as [k Hk].
    assert (Hhalf : length d / 2 = k)
      by (rewrite Hk, Nat.mul_comm; apply Nat.div_mul; discriminate).
    rewrite Hhalf. setoid_rewrite get_Ret.
    split; (intros (H1 & H2 & H3); repeat split; [lia|exact H2|exact H3]).
  - intros Hfit. destruct (is_sorted_spec d Hfit) as (b & Hb & _).
    now exists b.
Qed.

Lemma is_sorted_characterisation_witness :
  Nat.even (total_count [DISK_LIGHT; DISK_DARK]) = true /\
  fits_unsigned (total_count [DISK_LIGHT; DISK_DARK] / 2) /\
  (is_sorted [DISK_LIGHT; DISK_DARK] = Ret true <->
   0 < total_count [DISK_LIGHT; DISK_DARK] /\
   fits_unsigned (total_count [DISK_LIGHT; DISK_DARK] / 2) /\
   forall i, i < total_count [DISK_LIGHT; DISK_DARK] / 2 ->
     get [DISK_LIGHT; DISK_DARK] i = Ret DISK_LIGHT) /\
  exists b, is_sorted [DISK_LIGHT; DISK_DARK] = Ret b.
Proof.
  split; [reflexivity|]. split; [vm_compute; discriminate|].
  destruct (is_sorted_characterisation [DISK_LIGHT; DISK_DARK] eq_refl)
    as (Hiff & Hret & _).
  split; [exact Hiff|]. apply Hret. vm_compute. discriminate.
Defined.

(** C9: [swap] keeps the length, the number of light disks and the number
    of dark disks, exchanges the two disks it is given and leaves every
    other position as it was; the row returned by either algorithm has the
    length and the numbers of light and dark disks of its input, and on
    every non-empty reachable row whose [light_count] is at most UINT_MAX
    both algorithms do return such a row. *)
Theorem colors_preserved :
  (forall (d : list disk_color) i d',
     swap d i = Ret d' ->
     total_count d' = total_count d /\
     count_color DISK_LIGHT d' = count_color DISK_LIGHT d /\
     count_color DISK_DARK d' = count_color DISK_DARK d /\
     get d' i = get d (i + 1) /\ get d' (i + 1) = get d i /\
     forall j, j <> i -> j <> i + 1 -> get d' j = get d j) /\
  (forall fuel (d : list disk_color) r,
     sort_left_to_right fuel d = Some (Ret r) \/
     sort_lawnmower fuel d = Some (Ret r) ->
     total_count (after r) = total_count d /\
     count_color DISK_LIGHT (after r) = count_color DISK_LIGHT d /\
     count_color DISK_DARK (after r) = count_color DISK_DARK d) /\
  (forall d,
     reachable d -> 0 < total_count d -> fits_unsigned (light_count d) ->
     exists fuel r1 r2,
       sort_left_to_right fuel d = Some (Ret r1) /\
       sort_lawnmower fuel d = Some (Ret r2)).
Proof.
  split; [|split].
  - intros d i d' H. pose proof (swap_Permutation _ _ _ H) as Hp.
    destruct (swap_lookup _ _ _ H) as (H1 & H2 & H3).
    unfold total_count. rewrite !get_lookup, H1, H2.
    rewrite <- (Permutation_length Hp).
    rewrite <- !(count_color_Permutation _ _ _ Hp).
    repeat split. intros j Hj1 Hj2. now rewrite !get_lookup, H3.
  - intros fuel d r H.
    assert (Hp : d ≡ₚ after r).
    { unfold sort_left_to_right, sort_lawnmower, finish in H.
      destruct H as [H|H].
      - destruct (left_to_right_while fuel (d, 0)) as [[st| |]|] eqn:E;
          try discriminate H.
        injection H as <-. apply (left_to_right_Permutation _ _ _ E).
      - destruct (lawnmower_while fuel (d, 0)) as [[st| |]|] eqn:E;
          try discriminate H.
        injection H as <-. apply (lawnmower_Permutation _ _ _ E). }
    unfold total_count. rewrite <- (Permutation_length Hp).
    now rewrite <- !(count_color_Permutation _ _ _ Hp).
  - intros d Hr Hpos Hfit. pose proof (reachable_balanced d Hr Hpos) as Hb.
    destruct (left_to_right_terminates _ d 0 Hb Hfit (Nat.le_refl _))
      as (st1 & Hrun1 & _).
    destruct (lawnmower_terminates _ d 0 Hb Hfit (Nat.le_refl _))
      as (st2 & Hrun2 & _).
    exists (inversions DISK_DARK DISK_LIGHT d), (make_result st1), (make_result st2).
    unfold sort_left_to_right, sort_lawnmower.
    rewrite Hrun1, Hrun2 by lia. split; reflexivity.
Qed.

Lemma colors_preserved_witness :
  (swap [DISK_DARK; DISK_LIGHT; DISK_DARK; DISK_LIGHT] 1
   = Ret [DISK_DARK; DISK_DARK; DISK_LIGHT; DISK_LIGHT] /\
   count_color DISK_LIGHT [DISK_DARK; DISK_DARK; DISK_LIGHT; DISK_LIGHT]
   = count_color DISK_LIGHT [DISK_DARK; DISK_LIGHT; DISK_DARK; DISK_LIGHT]) /\
  (sort_lawnmower 1 [DISK_DARK; DISK_LIGHT; DISK_DARK; DISK_LIGHT]
   = Some (Ret (mk_sorted_disks [DISK_LIGHT; DISK_LIGHT; DISK_DARK; DISK_DARK] 3)) /\
   count_color DISK_DARK [DISK_LIGHT; DISK_LIGHT; DISK_DARK; DISK_DARK]
   = count_color DISK_DARK [DISK_DARK; DISK_LIGHT; DISK_DARK; DISK_LIGHT]) /\
  (reachable [DISK_DARK; DISK_LIGHT] /\
   0 < total_count [DISK_DARK; DISK_LIGHT] /\
   fits_unsigned (light_count [DISK_DARK; DISK_LIGHT]) /\
   exists fuel r1 r2,
     sort_left_to_right fuel [DISK_DARK; DISK_LIGHT] = Some (Ret r1) /\
     sort_lawnmower fuel [DISK_DARK; DISK_LIGHT] = Some (Ret r2)).
Proof.
  destruct colors_preserved as (Hswap & Hsort & Hreach).
  split; [|split].
  - split; [reflexivity|].
    apply (Hswap [DISK_DARK; DISK_LIGHT; DISK_DARK; DISK_LIGHT] 1). reflexivity.
  - split; [reflexivity|].
    apply (Hsort 1 [DISK_DARK; DISK_LIGHT; DISK_DARK; DISK_LIGHT]
             (mk_sorted_disks [DISK_LIGHT; DISK_LIGHT; DISK_DARK; DISK_DARK] 3)).
    right. reflexivity.
  - assert (Hr : reachable [DISK_DARK; DISK_LIGHT])
      by (apply (reach_new 1); reflexivity).
    split; [exact Hr|]. split; [simpl; lia|].
    split; [vm_compute; discriminate|].
    apply Hreach; [exact Hr|simpl; lia|vm_compute; discriminate].
Defined.

(** C10, as stated, fails: for n = 2^63 the constructor builds the empty
    row, which has no dark-before-light pair at all, and on it neither
    algorithm performs a swap or returns a count: each run stops at the
    failing [get(0)]. *)
Lemma no_swaps_when_wrapped :
  1 <= wrapping_pairs /\
  exists d,
    disk_state_new wrapping_pairs = Ret d /\
    inversions DISK_DARK DISK_LIGHT d = 0 /\
    forall fuel st,
      left_to_right_while fuel (d, 0) <> Some (Ret st) /\
      lawnmower_while fuel (d, 0) <> Some (Ret st).
Proof.
  split; [exact wrapping_pairs_positive|]. exists [].
  split; [exact disk_state_new_wrapping|]. split; [reflexivity|].
  intros fuel st.
  rewrite left_to_right_while_empty, lawnmower_while_empty.
  destruct fuel; split; discriminate.
Qed.

(** C10, amended: for every n with 1 <= n <= UINT_MAX the row built by the
    constructor has n * (n + 1) / 2 dark-before-light inversions, a swap
    of a dark disk with the light disk after it removes exactly one of
    them, and both algorithms perform exactly n * (n + 1) / 2 swaps on
    that row; the [unsigned] count they return is that number modulo
    2^32. *)
Theorem canonical_swap_total n :
  1 <= n -> fits_unsigned n ->
  exists d,
    disk_state_new n = Ret d /\
    inversions DISK_DARK DISK_LIGHT d = n * (n + 1) / 2 /\
    (forall (e e' : list disk_color) i,
       get e i = Ret DISK_DARK -> get e (i + 1) = Ret DISK_LIGHT ->
       swap e i = Ret e' ->
       inversions DISK_DARK DISK_LIGHT e' + 1 = inversions DISK_DARK DISK_LIGHT e) /\
    forall fuel, n <= fuel ->
      left_to_right_while fuel (d, 0)
      = Some (Ret (sorted_row n, n * (n + 1) / 2)) /\
      lawnmower_while fuel (d, 0)
      = Some (Ret (sorted_row n, n * (n + 1) / 2)) /\
      sort_left_to_right fuel d
      = Some (Ret (mk_sorted_disks (sorted_row n)
                     (Z.of_nat (n * (n + 1) / 2) mod 2 ^ 32)%Z)) /\
      sort_lawnmower fuel d
      = Some (Ret (mk_sorted_disks (sorted_row n)
                     (Z.of_nat (n * (n + 1) / 2) mod 2 ^ 32)%Z)).
Proof.
  intros Hn Hfit. exists (canonical n).
  split; [apply disk_state_new_canonical; [exact Hn|now apply fits_unsigned_size]|].
  split; [apply inversions_canonical|]. split.
  - intros e e' i Hx Hy. apply swap_removes_inversion; now apply get_Ret.
  - intros fuel Hf. fold (triangle n).
    rewrite left_to_right_canonical, lawnmower_canonical by assumption.
    rewrite sort_left_to_right_canonical, sort_lawnmower_canonical by assumption.
    repeat split; reflexivity.
Qed.

Lemma canonical_swap_total_witness :
  1 <= 3 /\ fits_unsigned 3 /\
  exists d,
    disk_state_new 3 = Ret d /\
    sort_left_to_right 3 d = Some (Ret (mk_sorted_disks (sorted_row 3) 6)) /\
    sort_lawnmower 3 d = Some (Ret (mk_sorted_disks (sorted_row 3) 6)).
Proof.
  split; [lia|]. split; [vm_compute; discriminate|].
  destruct (canonical_swap_total 3 ltac:(lia) ltac:(vm_compute; discriminate))
    as (d & Hd & _ & _ & Hrun).
  exists d. split; [exact Hd|].
  destruct (Hrun 3 ltac:(lia)) as (_ & _ & H1 & H2).
  split; [exact H1|exact H2].
Defined.

(** * Further properties of the code *)

(** ** The row built by the constructor *)

Lemma lookup_alternating a b m : forall i,
  i < m * 2 ->
  alternating a b m !! i = Some (if Nat.even i then a else b).
Proof.
  induction m as [|m IH]; intros i Hi; [lia|].
  destruct i as [|[|i]]; [reflexivity|reflexivity|].
  cbn [alternating]. change (Nat.even (S (S i))) with (Nat.even i).
  apply IH. lia.
Qed.

(** The loop of [is_alternating] reads below [total_count()] only. *)
Lemma is_alternating_loop_no_abort (d : list disk_color) fuel : forall i s,
  is_alternating_loop fuel i s d <> AssertFail.
Proof.
  induction fuel as [|fuel IH]; intros i s; cbn [is_alternating_loop];
    [discriminate|].
  unfold total_count.
  destruct (N.ltb_spec i (N.of_nat (length d))) as [Hlt|Hge]; [|discriminate].
  rewrite get_lookup.
  destruct (lookup_lt_is_Some_2 d (N.to_nat i) ltac:(lia)) as [c ->].
  cbn [cbind]. destruct c; [discriminate|apply IH].
Qed.

(** While the counter does not wrap the loop is the scan of the even
    indices. *)
Lemma is_alternating_loop_exact (d : list disk_color) fuel : forall (i : nat) s,
  counts_by_two (length d) ->
  Nat.even i = true -> i <= S (length d) -> length d + 2 <= i + 2 * fuel ->
  (forall j, j < i -> Nat.even j = true -> d !! j = Some DISK_DARK) ->
  (s = true <-> 0 < i) ->
  exists b, is_alternating_loop fuel (N.of_nat i) s d = Ret b /\
    (b = true <->
     0 < length d /\
     forall j, j < length d -> Nat.even j = true -> d !! j = Some DISK_DARK).
Proof.
  assert (Hexit : forall i s,
    length d <= i ->
    (forall j, j < i -> Nat.even j = true -> d !! j = Some DISK_DARK) ->
    (s = true <-> 0 < i) ->
    (s = true <->
     0 < length d /\
     forall j, j < length d -> Nat.even j = true -> d !! j = Some DISK_DARK)).
  { intros i s Hlen Hpre Hs. rewrite Hs. split.
    - intros Hi. split.
      + apply (lookup_lt_Some d 0 DISK_DARK). now apply Hpre.
      + intros j Hj. apply Hpre. lia.
    - intros [Hpos _]. lia. }
  induction fuel as [|fuel IH]; intros i s Hfit Hev Hi Hfuel Hpre Hs; [lia|].
  cbn [is_alternating_loop]. unfold total_count.
  destruct (N.ltb_spec (N.of_nat i) (N.of_nat (length d))) as [Hlt|Hge].
  - rewrite Nat2N.id, get_lookup.
    destruct (lookup_lt_is_Some_2 d i ltac:(lia)) as [c Hc]. rewrite Hc.
    cbn [cbind]. destruct c.
    + exists false. split; [reflexivity|]. split; [discriminate|].
      intros [_ Hall]. specialize (Hall i ltac:(lia) Hev). congruence.
    + rewrite uint_add_small by (unfold counts_by_two, UINT_MAX in *; lia).
      replace (N.of_nat i + 2)%N with (N.of_nat (S (S i))) by lia.
      apply IH; [exact Hfit|exact Hev|lia|lia| |split; [lia|reflexivity]].
      intros j Hj Hje.
      destruct (Nat.lt_ge_cases j i) as [Hji|Hji]; [now apply Hpre|].
      assert (j = i \/ j = S i) as [-> | ->] by lia; [exact Hc|].
      rewrite Nat.even_succ, <- Nat.negb_even, Hev in Hje. discriminate.
  - exists s. split; [reflexivity|]. apply (Hexit i); [lia|assumption..].
Qed.

(** Once [total_count()] is [UINT_MAX] or more the loop condition never
    fails at an even counter, so the loop cannot return the flag. *)
Lemma is_alternating_loop_never_true (d : list disk_color) fuel : forall i s,
  ~ counts_by_two (length d) ->
  (i mod 2 = 0)%N -> (i <= UINT_MAX)%N ->
  is_alternating_loop fuel i s d <> Ret true.
Proof.
  induction fuel as [|fuel IH]; intros i s Hbig Hev Hi;
    cbn [is_alternating_loop]; [discriminate|].
  unfold total_count.
  destruct (N.ltb_spec i (N.of_nat (length d))) as [Hlt|Hge].
  - destruct (get d (N.to_nat i)) as [[|]| |]; cbn [cbind]; try discriminate.
    apply IH; [exact Hbig| |apply uint_add_bound].
    unfold uint_add, UINT_MAX in *.
    change (4294967295 + 1)%N with (2 * 2147483648)%N.
    rewrite N.Div0.mod_mul_r.
    rewrite (N.mul_comm 2), N.Div0.mod_add, N.Div0.mod_mod.
    rewrite <- N.Div0.add_mod_idemp_l, Hev. reflexivity.
  - exfalso. apply Hbig. unfold counts_by_two, UINT_MAX in *.
    assert (i <> 4294967295%N) by (intros ->; discriminate Hev). lia.
Qed.

Lemma is_alternating_spec (d : list disk_color) :
  counts_by_two (length d) ->
  exists b, is_alternating d = Ret b /\
    (b = true <->
     0 < length d /\
     forall j, j < length d -> Nat.even j = true -> d !! j = Some DISK_DARK).
Proof.
  intros Hfit. unfold is_alternating, total_count.
  apply (is_alternating_loop_exact d _ 0 false);
    [exact Hfit|reflexivity|lia|lia| |].
  - intros j Hj. lia.
  - split; [discriminate|lia].
Qed.

Lemma is_alternating_true (d : list disk_color) :
  is_alternating d = Ret true <->
  0 < length d /\ counts_by_two (length d) /\
  forall j, j < length d -> Nat.even j = true -> d !! j = Some DISK_DARK.
Proof.
  destruct (N.lt_ge_cases (N.of_nat (length d)) UINT_MAX) as [Hfit|Hbig].
  - destruct (is_alternating_spec d Hfit) as (b & Hb & Hiff). rewrite Hb. split.
    + intros [= ->]. destruct Hiff as [Hall _].
      destruct (Hall eq_refl). repeat split; assumption.
    + intros (H1 & _ & H2). f_equal. apply Hiff. now split.
  - assert (Hn : ~ counts_by_two (length d))
      by (unfold counts_by_two; lia).
    split.
    + intros H. exfalso. revert H.
      apply is_alternating_loop_never_true;
        [exact Hn|reflexivity|unfold UINT_MAX; lia].
    + intros (_ & Hfit & _). contradiction.
Qed.

Lemma is_alternating_canonical n :
  1 <= n -> counts_by_two (n * 2) ->
  is_alternating (canonical n) = Ret true.
Proof.
  intros Hn Hfit. apply is_alternating_true. unfold canonical.
  rewrite length_alternating. split; [lia|]. split; [exact Hfit|].
  intros j Hj Hev. rewrite lookup_alternating by exact Hj. now rewrite Hev.
Qed.

Lemma is_sorted_canonical n : 1 <= n -> is_sorted (canonical n) = Ret false.
Proof.
  intros Hn. apply is_sorted_dark_head.
  - unfold canonical. rewrite length_alternating, Nat.div_mul by discriminate.
    lia.
  - unfold canonical. rewrite lookup_alternating by lia. reflexivity.
Qed.

Lemma counts_by_two_size n : counts_by_two (n * 2) -> fits_size (n * 2).
Proof. unfold counts_by_two, fits_size, UINT_MAX, SIZE_MAX. lia. Qed.

(** X1: for every n with 1 <= n <= UINT_MAX the constructor returns a
    row of 2n disks, n of them light and n dark, with a dark
    disk at every even index and a light disk at every odd index;
    [light_count] and [dark_count] are both n. *)
Theorem constructor_row n :
  1 <= n -> fits_unsigned n ->
  exists d,
    disk_state_new n = Ret d /\
    total_count d = 2 * n /\ light_count d = n /\ dark_count d = n /\
    count_color DISK_LIGHT d = n /\ count_color DISK_DARK d = n /\
    forall i, i < 2 * n -> get d i = Ret (initial_color i).
Proof.
  intros Hn Hfit. exists (canonical n).
  split; [apply disk_state_new_canonical;
          [exact Hn|now apply fits_unsigned_size]|].
  unfold dark_count, light_count, total_count, canonical.
  rewrite length_alternating.
  rewrite count_color_alternating_fst, count_color_alternating_snd
    by discriminate.
  rewrite Nat.div_mul by discriminate.
  repeat split; try lia.
  intros i Hi. apply get_Ret. apply lookup_alternating. lia.
Qed.

Lemma constructor_row_witness :
  1 <= 2 /\ fits_unsigned 2 /\
  exists d,
    disk_state_new 2 = Ret d /\
    total_count d = 2 * 2 /\ light_count d = 2 /\ dark_count d = 2 /\
    count_color DISK_LIGHT d = 2 /\ count_color DISK_DARK d = 2 /\
    forall i, i < 2 * 2 -> get d i = Ret (initial_color i).
Proof.
  split; [lia|]. split; [vm_compute; discriminate|].
  apply (constructor_row 2); [lia|vm_compute; discriminate].
Defined.

(** X2: for every n >= 1 with 2n < UINT_MAX the row returned by the
    constructor satisfies [is_alternating] and does not satisfy
    [is_sorted]. *)
Theorem constructor_row_alternating n :
  1 <= n -> counts_by_two (n * 2) ->
  exists d,
    disk_state_new n = Ret d /\
    is_alternating d = Ret true /\ is_sorted d = Ret false.
Proof.
  intros Hn Hfit. exists (canonical n).
  split; [apply disk_state_new_canonical;
          [exact Hn|now apply counts_by_two_size]|].
  split; [now apply is_alternating_canonical|now apply is_sorted_canonical].
Qed.

Lemma constructor_row_alternating_witness :
  1 <= 3 /\ counts_by_two (3 * 2) /\
  exists d,
    disk_state_new 3 = Ret d /\
    is_alternating d = Ret true /\ is_sorted d = Ret false.
Proof.
  split; [lia|]. split; [vm_compute; reflexivity|].
  apply (constructor_row_alternating 3); [lia|vm_compute; reflexivity].
Defined.

(** X3: [is_alternating] never fails an assertion. It returns true exactly
    when the row is non-empty, has fewer than UINT_MAX disks and has a
    dark disk at every even index (odd indices are not examined); on a
    row of fewer than UINT_MAX disks it always returns a boolean, false
    for the empty row. *)
Theorem is_alternating_characterisation (d : list disk_color) :
  is_alternating d <> AssertFail /\
  (is_alternating d = Ret true <->
   0 < total_count d /\ counts_by_two (total_count d) /\
   forall i, i < total_count d -> Nat.even i = true -> get d i = Ret DISK_DARK) /\
  (counts_by_two (total_count d) -> exists b, is_alternating d = Ret b).
Proof.
  split; [apply is_alternating_loop_no_abort|]. split.
  - rewrite is_alternating_true. unfold total_count.
    setoid_rewrite get_Ret. reflexivity.
  - intros Hfit. destruct (is_alternating_spec d Hfit) as (b & Hb & _).
    now exists b.
Qed.

Lemma is_alternating_characterisation_witness :
  counts_by_two (total_count [DISK_DARK; DISK_LIGHT]) /\
  exists b, is_alternating [DISK_DARK; DISK_LIGHT] = Ret b.
Proof.
  split; [vm_compute; reflexivity|].
  destruct (is_alternating_characterisation [DISK_DARK; DISK_LIGHT])
    as (_ & _ & H).
  apply H. vm_compute. reflexivity.
Defined.

(** X4: no row satisfies both [is_alternating] and [is_sorted]. *)
Theorem alternating_excludes_sorted (d : list disk_color) :
  is_alternating d = Ret true -> is_sorted d <> Ret true.
Proof.
  intros Ha Hs. apply is_alternating_true in Ha as (Hpos & _ & Hall).
  apply is_sorted_true in Hs as (Hhalf & _ & Hlight).
  specialize (Hall 0 Hpos eq_refl). specialize (Hlight 0 Hhalf). congruence.
Qed.

Lemma alternating_excludes_sorted_witness :
  is_alternating [DISK_DARK; DISK_LIGHT] = Ret true /\
  is_sorted [DISK_DARK; DISK_LIGHT] <> Ret true.
Proof.
  split; [reflexivity|].
  apply (alternating_excludes_sorted [DISK_DARK; DISK_LIGHT]). reflexivity.
Defined.

(** ** Reachable rows *)

Lemma reachable_counts (d : list disk_color) :
  reachable d ->
  total_count d = 2 * light_count d /\
  count_color DISK_LIGHT d = light_count d /\
  count_color DISK_DARK d = light_count d.
Proof.
  intros Hr. destruct (reachable_even d Hr) as [Heq _].
  pose proof (count_color_total d) as Ht.
  unfold light_count, total_count.
  replace (length d) with (count_color DISK_LIGHT d * 2) by lia.
  rewrite Nat.div_mul by discriminate. lia.
Qed.

Lemma evens_dark_shape m : forall l : list disk_color,
  length l = m * 2 ->
  (forall j, j < length l -> Nat.even j = true -> l !! j = Some DISK_DARK) ->
  m <= count_color DISK_DARK l /\
  (count_color DISK_DARK l <= m -> l = alternating DISK_DARK DISK_LIGHT m).
Proof.
  induction m as [|m IH]; intros l Hlen Hall.
  - destruct l; [|discriminate Hlen]. split; [simpl; lia|reflexivity].
  - destruct l as [|x [|y l]]; try discriminate Hlen.
    assert (Hx : x = DISK_DARK).
    { specialize (Hall 0 ltac:(simpl; lia) eq_refl). now injection Hall. }
    subst x.
    destruct (IH l) as [Hlow Heq].
    + simpl in Hlen. lia.
    + intros j Hj Hev. apply (Hall (S (S j))); [simpl; lia|exact Hev].
    + cbn [count_color alternating].
      rewrite decide_True by reflexivity.
      split; [lia|]. intros Hle.
      destruct y.
      * rewrite decide_False in Hle by discriminate.
        f_equal. f_equal. apply Heq. lia.
      * rewrite decide_True in Hle by reflexivity. lia.
Qed.

(** X5: on a non-empty row of fewer than UINT_MAX disks reachable through
    the constructor and [swap], [is_alternating] is true exactly when the
    row is DARK, LIGHT repeated [light_count] times, although the loop
    only looks at the even indices. *)
Theorem is_alternating_reachable d :
  reachable d -> 0 < total_count d -> counts_by_two (total_count d) ->
  (is_alternating d = Ret true <->
   d = alternating DISK_DARK DISK_LIGHT (light_count d)).
Proof.
  intros Hr Hpos Hfit. destruct (reachable_counts d Hr) as (Hlen & HL & HD).
  unfold total_count in *. split.
  - intros Ha. apply is_alternating_true in Ha as (_ & _ & Hall).
    apply evens_dark_shape; [lia|exact Hall|lia].
  - intros Hd. rewrite Hd. apply is_alternating_canonical; [lia|].
    now replace (light_count d * 2) with (length d) by lia.
Qed.

Lemma is_alternating_reachable_witness :
  reachable [DISK_LIGHT; DISK_DARK; DISK_DARK; DISK_LIGHT] /\
  0 < total_count [DISK_LIGHT; DISK_DARK; DISK_DARK; DISK_LIGHT] /\
  counts_by_two (total_count [DISK_LIGHT; DISK_DARK; DISK_DARK; DISK_LIGHT]) /\
  (is_alternating [DISK_LIGHT; DISK_DARK; DISK_DARK; DISK_LIGHT] = Ret true <->
   [DISK_LIGHT; DISK_DARK; DISK_DARK; DISK_LIGHT]
   = alternating DISK_DARK DISK_LIGHT
       (light_count [DISK_LIGHT; DISK_DARK; DISK_DARK; DISK_LIGHT])).
Proof.
  assert (Hr : reachable [DISK_LIGHT; DISK_DARK; DISK_DARK; DISK_LIGHT]).
  { apply (reach_swap [DISK_DARK; DISK_LIGHT; DISK_DARK; DISK_LIGHT] 0).
    - apply (reach_new 2). reflexivity.
    - reflexivity. }
  split; [exact Hr|]. split; [simpl; lia|]. split; [vm_compute; reflexivity|].
  apply is_alternating_reachable;
    [exact Hr|simpl; lia|vm_compute; reflexivity].
Defined.

(** X6: on every reachable row [light_count] (computed as half the length)
    is the actual number of light disks, [dark_count] the actual number of
    dark disks, and the two add up to [total_count], which fits a
    [size_t]; the row may be empty. *)
Theorem light_count_counts d :
  reachable d ->
  light_count d = count_color DISK_LIGHT d /\
  dark_count d = count_color DISK_DARK d /\
  light_count d + dark_count d = total_count d /\
  fits_size (total_count d).
Proof.
  intros Hr. destruct (reachable_counts d Hr) as (Hlen & HL & HD).
  destruct (reachable_even d Hr) as [_ Hfit].
  unfold dark_count. repeat split; try lia. exact Hfit.
Qed.

Lemma light_count_counts_witness :
  reachable [DISK_DARK; DISK_DARK; DISK_LIGHT; DISK_LIGHT] /\
  light_count [DISK_DARK; DISK_DARK; DISK_LIGHT; DISK_LIGHT]
  = count_color DISK_LIGHT [DISK_DARK; DISK_DARK; DISK_LIGHT; DISK_LIGHT] /\
  dark_count [DISK_DARK; DISK_DARK; DISK_LIGHT; DISK_LIGHT]
  = count_color DISK_DARK [DISK_DARK; DISK_DARK; DISK_LIGHT; DISK_LIGHT] /\
  light_count [DISK_DARK; DISK_DARK; DISK_LIGHT; DISK_LIGHT]
  + dark_count [DISK_DARK; DISK_DARK; DISK_LIGHT; DISK_LIGHT]
  = total_count [DISK_DARK; DISK_DARK; DISK_LIGHT; DISK_LIGHT] /\
  fits_size (total_count [DISK_DARK; DISK_DARK; DISK_LIGHT; DISK_LIGHT]).
Proof.
  assert (Hr : reachable [DISK_DARK; DISK_DARK; DISK_LIGHT; DISK_LIGHT]).
  { apply (reach_swap [DISK_DARK; DISK_LIGHT; DISK_DARK; DISK_LIGHT] 1).
    - apply (reach_new 2). reflexivity.
    - reflexivity. }
  split; [exact Hr|]. apply light_count_counts. exact Hr.
Defined.

(** X7: [swap] is its own inverse: when [swap(i)] succeeds, a second
    [swap(i)] on the result succeeds and gives back the original row. *)
Theorem swap_twice (d d' : list disk_color) i :
  swap d i = Ret d' -> swap d' i = Ret d.
Proof.
  intros H. destruct (swap_inv _ _ _ H) as (pre & x & y & post & <- & -> & ->).
  apply swap_middle.
Qed.

Lemma swap_twice_witness :
  swap [DISK_DARK; DISK_LIGHT; DISK_DARK; DISK_LIGHT] 2
  = Ret [DISK_DARK; DISK_LIGHT; DISK_LIGHT; DISK_DARK] /\
  swap [DISK_DARK; DISK_LIGHT; DISK_LIGHT; DISK_DARK] 2
  = Ret [DISK_DARK; DISK_LIGHT; DISK_DARK; DISK_LIGHT].
Proof.
  split; [reflexivity|].
  apply (swap_twice [DISK_DARK; DISK_LIGHT; DISK_DARK; DISK_LIGHT]). reflexivity.
Defined.

(** ** operator== *)

Lemma all_equal_true (d : list disk_color) : forall rhs,
  all_equal d rhs = true <-> exists k, rhs = d ++ k.
Proof.
  induction d as [|x d IH]; intros rhs; cbn [all_equal].
  - split; [intros _; now exists rhs|reflexivity].
  - destruct rhs as [|y rhs].
    + split; [discriminate|intros [k Hk]; discriminate Hk].
    + rewrite andb_true_iff, bool_decide_eq_true, IH. split.
      * intros [-> [k ->]]. now exists k.
      * intros [k Hk]. injection Hk as -> ->. split; [reflexivity|now exists k].
Qed.

Lemma std_equal_true (d rhs : list disk_color) :
  std_equal d rhs = Some true <-> exists k, rhs = d ++ k.
Proof.
  unfold std_equal. destruct (Nat.ltb_spec (length rhs) (length d)) as [Hlt|Hge].
  - split; [discriminate|]. intros [k ->]. rewrite length_app in Hlt. lia.
  - rewrite <- all_equal_true. split; congruence.
Qed.

Lemma std_equal_undefined (d rhs : list disk_color) :
  std_equal d rhs = None <-> length rhs < length d.
Proof.
  unfold std_equal. destruct (Nat.ltb_spec (length rhs) (length d));
    split; (discriminate || lia || reflexivity || trivial).
Qed.

(** X8: on two rows of the same length [operator==] is defined and returns
    true exactly when the rows are equal. *)
Theorem equals_same_length (d rhs : list disk_color) :
  total_count d = total_count rhs ->
  exists b, equals d rhs = Some b /\ (b = true <-> d = rhs).
Proof.
  unfold equals, total_count. intros Hlen.
  exists (all_equal d rhs). split.
  - unfold std_equal. now rewrite Hlen, Nat.ltb_irrefl.
  - rewrite all_equal_true. split.
    + intros [k ->]. rewrite length_app in Hlen.
      destruct k; [now rewrite app_nil_r|simpl in Hlen; lia].
    + intros ->. exists []. now rewrite app_nil_r.
Qed.

Lemma equals_same_length_witness :
  total_count [DISK_DARK; DISK_LIGHT] = total_count [DISK_LIGHT; DISK_DARK] /\
  exists b,
    equals [DISK_DARK; DISK_LIGHT] [DISK_LIGHT; DISK_DARK] = Some b /\
    (b = true <-> [DISK_DARK; DISK_LIGHT] = [DISK_LIGHT; DISK_DARK]).
Proof.
  split; [reflexivity|]. apply equals_same_length. reflexivity.
Defined.

(** X9: [operator==] is undefined exactly when its right operand is
    shorter than the left one (std::equal is given no end for the right
    range); it returns true exactly when the left row is a prefix of the
    right one, so a row compares equal to any longer row that extends
    it. *)
Theorem equals_prefix (d rhs : list disk_color) :
  (equals d rhs = None <-> total_count rhs < total_count d) /\
  (equals d rhs = Some true <-> exists k, rhs = d ++ k).
Proof.
  split; [apply std_equal_undefined|apply std_equal_true].
Qed.

Lemma alternating_add a b n k :
  alternating a b (n + k) = alternating a b n ++ alternating a b k.
Proof.
  induction n as [|n IH]; [reflexivity|].
  cbn [Nat.add alternating app]. now rewrite IH.
Qed.

(** X10: two rows built by the constructor for sizes 1 <= n <= m, with m
    at most UINT_MAX, compare equal with the smaller one on the left,
    since the smaller row is a prefix of the larger; with the larger one
    on the left and n < m the comparison is undefined. *)
Theorem equals_constructed n m :
  1 <= n -> n <= m -> fits_unsigned m ->
  exists d e,
    disk_state_new n = Ret d /\ disk_state_new m = Ret e /\
    equals d e = Some true /\
    (n < m -> equals e d = None).
Proof.
  intros Hn Hm Hfit. exists (canonical n), (canonical m).
  split; [apply disk_state_new_canonical; [lia|width_lia]|].
  split; [apply disk_state_new_canonical; [lia|width_lia]|].
  unfold equals, canonical. split.
  - apply std_equal_true. exists (alternating DISK_DARK DISK_LIGHT (m - n)).
    rewrite <- alternating_add. f_equal. lia.
  - intros Hlt. apply std_equal_undefined. rewrite !length_alternating. lia.
Qed.

Lemma equals_constructed_witness :
  1 <= 1 /\ 1 <= 2 /\ fits_unsigned 2 /\
  exists d e,
    disk_state_new 1 = Ret d /\ disk_state_new 2 = Ret e /\
    equals d e = Some true /\
    (1 < 2 -> equals e d = None).
Proof.
  split; [lia|]. split; [lia|]. split; [vm_compute; discriminate|].
  apply (equals_constructed 1 2); [lia|lia|vm_compute; discriminate].
Defined.

(** ** to_string *)

Lemma string_append_assoc (s1 s2 s3 : String.string) :
  String.append (String.append s1 s2) s3 = String.append s1 (String.append s2 s3).
Proof.
  induction s1 as [|c s1 IH]; [reflexivity|]. simpl. now rewrite IH.
Qed.

Lemma string_append_empty (s : String.string) :
  String.append s String.EmptyString = s.
Proof.
  induction s as [|c s IH]; [reflexivity|]. simpl. now rewrite IH.
Qed.

Lemma fold_to_string_step (d : list disk_color) : forall acc,
  fold_left to_string_step d (acc, false) = (String.append acc (spaced d), false).
Proof.
  induction d as [|c d IH]; intros acc.
  - simpl. now rewrite string_append_empty.
  - cbn [fold_left spaced]. unfold to_string_step at 2. cbn [fst snd].
    destruct c; rewrite IH, !string_append_assoc; reflexivity.
Qed.

Lemma to_string_cons c (d : list disk_color) :
  to_string (c :: d) = String.String (letter c) (spaced d).
Proof.
  unfold to_string. cbn [fold_left]. unfold to_string_step at 2. cbn [fst snd].
  destruct c; rewrite fold_to_string_step; reflexivity.
Qed.

Lemma length_spaced (d : list disk_color) :
  String.length (spaced d) = 2 * length d.
Proof.
  induction d as [|c d IH]; [reflexivity|].
  cbn [spaced String.length length]. rewrite IH. lia.
Qed.

Lemma letter_inj c c' : letter c = letter c' -> c = c'.
Proof. destruct c, c'; simpl; congruence. Qed.

Lemma spaced_inj (d : list disk_color) : forall d',
  spaced d = spaced d' -> d = d'.
Proof.
  induction d as [|c d IH]; intros [|c' d'] H; simpl in H;
    try discriminate H; [reflexivity|].
  injection H as Hc Hd. apply letter_inj in Hc. apply IH in Hd. congruence.
Qed.

(** X11: [to_string] writes one letter per disk and one space between
    neighbours: the text of a non-empty row has [2 * total_count - 1]
    characters and the text of the empty row is empty. *)
Theorem to_string_length (d : list disk_color) :
  String.length (to_string d) = 2 * total_count d - 1.
Proof.
  destruct d as [|c d]; [reflexivity|].
  rewrite to_string_cons. unfold total_count.
  cbn [String.length length]. rewrite length_spaced. lia.
Qed.

(** X12: [to_string] determines the row: two rows with the same text are
    the same row (of the same length). *)
Theorem to_string_injective (d d' : list disk_color) :
  to_string d = to_string d' -> d = d'.
Proof.
  destruct d as [|c d], d' as [|c' d']; [reflexivity| | |].
  - rewrite to_string_cons. discriminate.
  - rewrite to_string_cons. discriminate.
  - rewrite !to_string_cons. intros H. injection H as Hc Hd.
    apply letter_inj in Hc. apply spaced_inj in Hd. congruence.
Qed.

Lemma to_string_injective_witness :
  to_string [DISK_DARK; DISK_LIGHT] = "D L"%string /\
  [DISK_DARK; DISK_LIGHT] = [DISK_DARK; DISK_LIGHT].
Proof.
  split; [reflexivity|].
  apply (to_string_injective [DISK_DARK; DISK_LIGHT] [DISK_DARK; DISK_LIGHT]).
  reflexivity.
Defined.

(** X13: the text of a row has the letter of disk [i] (L for light, D for
    dark) at position [2 * i] and a space at every odd position before
    the end. *)
Theorem to_string_positions (d : list disk_color) i c :
  d !! i = Some c ->
  String.get (2 * i) (to_string d) = Some (letter c) /\
  (0 < i -> String.get (2 * i - 1) (to_string d) = Some " "%char).
Proof.
  destruct d as [|x d]; [discriminate|]. rewrite to_string_cons.
  revert x d. induction i as [|i IH]; intros x d Hc.
  - injection Hc as ->. split; [reflexivity|lia].
  - destruct d as [|y d]; [discriminate Hc|].
    specialize (IH y d Hc) as [IH1 IH2].
    replace (2 * S i) with (S (S (2 * i))) by lia.
    replace (S (S (2 * i)) - 1) with (S (2 * i)) by lia.
    cbn [spaced String.get]. split; [exact IH1|]. intros _.
    destruct i as [|i]; [reflexivity|].
    specialize (IH2 ltac:(lia)).
    replace (2 * S i) with (S (2 * S i - 1)) by lia.
    cbn [String.get]. exact IH2.
Qed.

Lemma to_string_positions_witness :
  [DISK_DARK; DISK_LIGHT; DISK_DARK] !! 1 = Some DISK_LIGHT /\
  String.get (2 * 1) (to_string [DISK_DARK; DISK_LIGHT; DISK_DARK])
  = Some (letter DISK_LIGHT) /\
  (0 < 1 ->
   String.get (2 * 1 - 1) (to_string [DISK_DARK; DISK_LIGHT; DISK_DARK])
   = Some " "%char).
Proof.
  split; [reflexivity|].
  apply (to_string_positions [DISK_DARK; DISK_LIGHT; DISK_DARK] 1 DISK_LIGHT).
  reflexivity.
Defined.

(** ** The sorts on arbitrary reachable rows *)

Lemma count_zero_all_dark (l : list disk_color) :
  count_color DISK_LIGHT l = 0 -> l = replicate (length l) DISK_DARK.
Proof.
  induction l as [|x l IH]; [reflexivity|].
  cbn [count_color length replicate]. destruct x.
  - rewrite decide_True by reflexivity. lia.
  - rewrite decide_False by discriminate. intros H. f_equal. apply IH. lia.
Qed.

Lemma sorted_shape (d : list disk_color) :
  balanced d -> is_sorted d = Ret true ->
  d = sorted_row (count_color DISK_LIGHT d).
Proof.
  intros [H1 H2] Hs. pose proof (count_color_total d) as Ht.
  set (n := count_color DISK_LIGHT d) in *.
  assert (Hlen : length d = n * 2) by lia.
  apply is_sorted_true in Hs as (_ & _ & Hl).
  rewrite Hlen, Nat.div_mul in Hl by discriminate.
  assert (Htake : take n d = replicate n DISK_LIGHT).
  { apply list_eq. intros j. destruct (Nat.lt_ge_cases j n) as [Hj|Hj].
    - rewrite lookup_take_lt by exact Hj. rewrite Hl by exact Hj.
      symmetry. now apply lookup_replicate_2.
    - rewrite lookup_take_ge by exact Hj.
      symmetry. now apply lookup_replicate_None. }
  assert (Hdrop : count_color DISK_LIGHT (drop n d) = 0).
  { pose proof (count_color_app DISK_LIGHT (take n d) (drop n d)) as Happ.
    rewrite take_drop, Htake, count_color_replicate_same in Happ.
    fold n in Happ. lia. }
  apply count_zero_all_dark in Hdrop. rewrite length_drop, Hlen in Hdrop.
  replace (n * 2 - n) with n in Hdrop by lia.
  rewrite <- (take_drop n d) at 1. unfold sorted_row. congruence.
Qed.

Lemma inversions_sorted_row n :
  inversions DISK_DARK DISK_LIGHT (sorted_row n) = 0.
Proof.
  unfold sorted_row. rewrite inversions_app.
  rewrite (count_color_replicate_other DISK_DARK DISK_LIGHT) by discriminate.
  assert (HL : forall k, inversions DISK_DARK DISK_LIGHT (replicate k DISK_LIGHT) = 0).
  { induction k as [|k IH]; [reflexivity|]. cbn [replicate inversions].
    rewrite decide_False by discriminate. exact IH. }
  assert (HD : forall k, inversions DISK_DARK DISK_LIGHT (replicate k DISK_DARK) = 0).
  { induction k as [|k IH]; [reflexivity|]. cbn [replicate inversions].
    rewrite decide_True by reflexivity.
    rewrite (count_color_replicate_other DISK_LIGHT DISK_DARK) by discriminate.
    exact IH. }
  rewrite HL, HD. lia.
Qed.

Lemma left_to_right_result N : forall (d : list disk_color) c fuel,
  balanced d -> fits_unsigned (length d / 2) ->
  inversions DISK_DARK DISK_LIGHT d <= N -> N <= fuel ->
  left_to_right_while fuel (d, c)
  = Some (Ret (sorted_row (count_color DISK_LIGHT d),
               c + inversions DISK_DARK DISK_LIGHT d)).
Proof.
  assert (Hdone : forall (d : list disk_color) c fuel,
    balanced d -> is_sorted d = Ret true ->
    left_to_right_while fuel (d, c)
    = Some (Ret (sorted_row (count_color DISK_LIGHT d),
                 c + inversions DISK_DARK DISK_LIGHT d))).
  { intros d c fuel Hb Hs. pose proof (sorted_shape d Hb Hs) as Hd.
    rewrite Hd at 3. rewrite inversions_sorted_row, Nat.add_0_r, <- Hd.
    destruct fuel; cbn [left_to_right_while fst]; now rewrite Hs. }
  induction N as [|N IH]; intros d c fuel Hb Hfit Hinv Hf;
    destruct (is_sorted_spec d Hfit) as ([|] & Hs & _); try (now apply Hdone).
  - rewrite balanced_no_inversions in Hs by (trivial; lia). discriminate.
  - destruct (forward_pass_facts d c (balanced_nonempty d Hb))
      as (d' & s & Hpass & Hperm & Hdec & Hprog).
    assert (s <> 0).
    { intros ->. rewrite balanced_no_inversions in Hs by auto. discriminate. }
    destruct fuel as [|fuel]; [lia|].
    cbn [left_to_right_while fst]. rewrite Hs, Hpass.
    rewrite IH;
      [|now apply (balanced_Permutation d)
       |now rewrite <- (Permutation_length Hperm)|lia|lia].
    rewrite <- (count_color_Permutation _ _ _ Hperm).
    do 3 f_equal. lia.
Qed.

Lemma lawnmower_result N : forall (d : list disk_color) c fuel,
  balanced d -> fits_unsigned (length d / 2) ->
  inversions DISK_DARK DISK_LIGHT d <= N -> N <= fuel ->
  lawnmower_while fuel (d, c)
  = Some (Ret (sorted_row (count_color DISK_LIGHT d),
               c + inversions DISK_DARK DISK_LIGHT d)).
Proof.
  assert (Hdone : forall (d : list disk_color) c fuel,
    balanced d -> is_sorted d = Ret true ->
    lawnmower_while fuel (d, c)
    = Some (Ret (sorted_row (count_color DISK_LIGHT d),
                 c + inversions DISK_DARK DISK_LIGHT d))).
  { intros d c fuel Hb Hs. pose proof (sorted_shape d Hb Hs) as Hd.
    rewrite Hd at 3. rewrite inversions_sorted_row, Nat.add_0_r, <- Hd.
    destruct fuel; cbn [lawnmower_while fst]; now rewrite Hs. }
  induction N as [|N IH]; intros d c fuel Hb Hfit Hinv Hf;
    destruct (is_sorted_spec d Hfit) as ([|] & Hs & _); try (now apply Hdone).
  - rewrite balanced_no_inversions in Hs by (trivial; lia). discriminate.
  - destruct (forward_pass_facts d c (balanced_nonempty d Hb))
      as (d1 & s1 & Hpass1 & Hperm1 & Hdec1 & Hprog).
    assert (s1 <> 0).
    { intros ->. rewrite balanced_no_inversions in Hs by auto. discriminate. }
    assert (Hb1 : balanced d1) by now apply (balanced_Permutation d).
    destruct (backward_pass_facts d1 (c + s1) (balanced_nonempty d1 Hb1))
      as (d2 & s2 & Hpass2 & Hperm2 & Hdec2).
    destruct fuel as [|fuel]; [lia|].
    cbn [lawnmower_while fst]. rewrite Hs, Hpass1. cbn [cbind].
    rewrite Hpass2.
    rewrite IH;
      [|now apply (balanced_Permutation d1)
       |now rewrite <- (Permutation_length Hperm2), <- (Permutation_length Hperm1)
       |lia|lia].
    rewrite <- (count_color_Permutation _ _ _ Hperm2).
    rewrite <- (count_color_Permutation _ _ _ Hperm1).
    do 3 f_equal. lia.
Qed.

Lemma inversions_bound a b (l : list disk_color) :
  inversions a b l <= count_color a l * count_color b l.
Proof.
  induction l as [|x l IH]; [reflexivity|].
  cbn [inversions count_color]. repeat case_decide; nia.
Qed.

(** X14: on every non-empty reachable row whose [light_count] n is at
    most UINT_MAX, both algorithms return the row of n light disks
    followed by n dark disks, and both perform exactly as many swaps as
    the input has dark-before-light pairs of positions; the returned
    [swap_count] is that number modulo 2^32. In particular the two
    algorithms agree on every such row. *)
Theorem sort_reachable d :
  reachable d -> 0 < total_count d -> fits_unsigned (light_count d) ->
  forall fuel, inversions DISK_DARK DISK_LIGHT d <= fuel ->
    left_to_right_while fuel (d, 0)
    = Some (Ret (sorted_row (light_count d), inversions DISK_DARK DISK_LIGHT d)) /\
    lawnmower_while fuel (d, 0)
    = Some (Ret (sorted_row (light_count d), inversions DISK_DARK DISK_LIGHT d)) /\
    sort_left_to_right fuel d
    = Some (Ret (mk_sorted_disks (sorted_row (light_count d))
                   (Z.of_nat (inversions DISK_DARK DISK_LIGHT d) mod 2 ^ 32)%Z)) /\
    sort_lawnmower fuel d = sort_left_to_right fuel d.
Proof.
  intros Hr Hpos Hfit fuel Hf. pose proof (reachable_balanced d Hr Hpos) as Hb.
  destruct (reachable_counts d Hr) as (_ & HL & _).
  pose proof (left_to_right_result _ d 0 fuel Hb Hfit (Nat.le_refl _) Hf) as H1.
  pose proof (lawnmower_result _ d 0 fuel Hb Hfit (Nat.le_refl _) Hf) as H2.
  rewrite HL in H1, H2. cbn [Nat.add] in H1, H2.
  unfold sort_left_to_right, sort_lawnmower. rewrite H1, H2.
  unfold finish, make_result. cbn [fst snd].
  rewrite to_unsigned_int_of_increments. repeat split; reflexivity.
Qed.

Lemma sort_reachable_witness :
  reachable [DISK_DARK; DISK_DARK; DISK_LIGHT; DISK_LIGHT] /\
  0 < total_count [DISK_DARK; DISK_DARK; DISK_LIGHT; DISK_LIGHT] /\
  fits_unsigned (light_count [DISK_DARK; DISK_DARK; DISK_LIGHT; DISK_LIGHT]) /\
  inversions DISK_DARK DISK_LIGHT [DISK_DARK; DISK_DARK; DISK_LIGHT; DISK_LIGHT] <= 4 /\
  sort_left_to_right 4 [DISK_DARK; DISK_DARK; DISK_LIGHT; DISK_LIGHT]
  = Some (Ret (mk_sorted_disks [DISK_LIGHT; DISK_LIGHT; DISK_DARK; DISK_DARK] 4)) /\
  sort_lawnmower 4 [DISK_DARK; DISK_DARK; DISK_LIGHT; DISK_LIGHT]
  = sort_left_to_right 4 [DISK_DARK; DISK_DARK; DISK_LIGHT; DISK_LIGHT].
Proof.
  assert (Hr : reachable [DISK_DARK; DISK_DARK; DISK_LIGHT; DISK_LIGHT]).
  { apply (reach_swap [DISK_DARK; DISK_LIGHT; DISK_DARK; DISK_LIGHT] 1).
    - apply (reach_new 2). reflexivity.
    - reflexivity. }
  split; [exact Hr|]. split; [simpl; lia|].
  split; [vm_compute; discriminate|]. split; [simpl; lia|].
  destruct (sort_reachable _ Hr ltac:(simpl; lia) ltac:(vm_compute; discriminate)
              4 ltac:(simpl; lia)) as (_ & _ & H3 & H4).
  split; [exact H3|exact H4].
Defined.

(** X15: on a non-empty reachable row with n = [light_count] at most
    UINT_MAX neither algorithm performs more than n * n swaps, and n * n
    outer iterations always suffice. *)
Theorem swap_count_bound d :
  reachable d -> 0 < total_count d -> fits_unsigned (light_count d) ->
  exists k,
    k <= light_count d * light_count d /\
    forall fuel, light_count d * light_count d <= fuel ->
      left_to_right_while fuel (d, 0)
      = Some (Ret (sorted_row (light_count d), k)) /\
      lawnmower_while fuel (d, 0)
      = Some (Ret (sorted_row (light_count d), k)).
Proof.
  intros Hr Hpos Hfit. exists (inversions DISK_DARK DISK_LIGHT d).
  destruct (reachable_counts d Hr) as (_ & HL & HD).
  pose proof (inversions_bound DISK_DARK DISK_LIGHT d) as Hbound.
  rewrite HL, HD in Hbound. split; [exact Hbound|].
  intros fuel Hf. pose proof (reachable_balanced d Hr Hpos) as Hb.
  pose proof (left_to_right_result _ d 0 fuel Hb Hfit (Nat.le_refl _) ltac:(lia))
    as H1.
  pose proof (lawnmower_result _ d 0 fuel Hb Hfit (Nat.le_refl _) ltac:(lia))
    as H2.
  rewrite HL in H1, H2. split; assumption.
Qed.

Lemma swap_count_bound_witness :
  reachable [DISK_DARK; DISK_LIGHT; DISK_DARK; DISK_LIGHT] /\
  0 < total_count [DISK_DARK; DISK_LIGHT; DISK_DARK; DISK_LIGHT] /\
  fits_unsigned (light_count [DISK_DARK; DISK_LIGHT; DISK_DARK; DISK_LIGHT]) /\
  exists k,
    k <= 2 * 2 /\
    forall fuel, 2 * 2 <= fuel ->
      left_to_right_while fuel ([DISK_DARK; DISK_LIGHT; DISK_DARK; DISK_LIGHT], 0)
      = Some (Ret (sorted_row 2, k)) /\
      lawnmower_while fuel ([DISK_DARK; DISK_LIGHT; DISK_DARK; DISK_LIGHT], 0)
      = Some (Ret (sorted_row 2, k)).
Proof.
  assert (Hr : reachable [DISK_DARK; DISK_LIGHT; DISK_DARK; DISK_LIGHT])
    by (apply (reach_new 2); reflexivity).
  split; [exact Hr|]. split; [simpl; lia|].
  split; [vm_compute; discriminate|].
  apply (swap_count_bound _ Hr); [simpl; lia|vm_compute; discriminate].
Defined.

(** ** Outer iterations needed on the constructed row *)

Lemma left_to_right_pattern_short m : forall k c fuel,
  fits_unsigned (k + m) -> fuel < m ->
  left_to_right_while fuel (pattern DISK_DARK DISK_LIGHT k m k, c) = None.
Proof.
  induction m as [|m IH]; intros k c fuel Hfit Hf; [lia|].
  destruct fuel as [|fuel]; cbn [left_to_right_while fst];
    rewrite is_sorted_pattern_false by exact Hfit; [reflexivity|].
  rewrite forward_pass_pattern. apply IH; [width_lia|lia].
Qed.

Lemma lawnmower_pattern_exact m : forall k c fuel,
  1 <= k + m -> fits_unsigned (k + m) ->
  (m <= 2 * fuel ->
   lawnmower_while fuel (pattern DISK_DARK DISK_LIGHT k m k, c)
   = Some (Ret (sorted_row (k + m), c + triangle m))) /\
  (2 * fuel < m ->
   lawnmower_while fuel (pattern DISK_DARK DISK_LIGHT k m k, c) = None).
Proof.
  induction m as [m IH] using lt_wf_ind; intros k c fuel Hk Hfit.
  destruct m as [|[|m]].
  - split; [intros _|lia]. apply lawnmower_pattern; (lia || assumption).
  - destruct fuel as [|fuel]; cbn [lawnmower_while fst];
      rewrite is_sorted_pattern_false by exact Hfit;
      [split; [lia|reflexivity]|].
    split; [intros _|lia].
    rewrite forward_pass_pattern. cbn [cbind].
    rewrite backward_pass_pattern_done by lia.
    destruct (IH 0 ltac:(lia) (S k) (c + 1) fuel ltac:(lia) ltac:(width_lia))
      as [Hdone _].
    rewrite Hdone by lia.
    replace (S k + 0) with (k + 1) by lia.
    change (triangle 0) with 0. change (triangle 1) with 1.
    now rewrite Nat.add_0_r.
  - destruct fuel as [|fuel]; cbn [lawnmower_while fst];
      rewrite is_sorted_pattern_false by exact Hfit;
      [split; [lia|reflexivity]|].
    rewrite forward_pass_pattern. cbn [cbind].
    rewrite backward_pass_pattern.
    destruct (IH m ltac:(lia) (S (S k)) (c + S (S m) + S m) fuel ltac:(lia)
                ltac:(width_lia))
      as [Hdone Hshort].
    split.
    + intros Hf. rewrite Hdone by lia. rewrite !triangle_S.
      replace (S (S k) + m) with (k + S (S m)) by lia.
      now replace (c + S (S m) + S m + triangle m)
        with (c + (triangle m + S m + S (S m))) by lia.
    + intros Hf. apply Hshort. lia.
Qed.

(** X16: on the row built for n with 1 <= n <= UINT_MAX,
    [sort_left_to_right] needs exactly n iterations of its [while] loop
    and [sort_lawnmower] exactly n / 2 rounded up: with fewer iterations
    allowed the loop has not finished, with that many it has. *)
Theorem outer_iterations n fuel :
  1 <= n -> fits_unsigned n ->
  exists d,
    disk_state_new n = Ret d /\
    (sort_left_to_right fuel d = None <-> fuel < n) /\
    (sort_lawnmower fuel d = None <-> 2 * fuel < n).
Proof.
  intros Hn Hfit. exists (canonical n).
  split; [apply disk_state_new_canonical;
          [exact Hn|now apply fits_unsigned_size]|].
  unfold sort_left_to_right, sort_lawnmower. rewrite canonical_pattern.
  split.
  - destruct (Nat.lt_ge_cases fuel n) as [Hlt|Hge].
    + rewrite left_to_right_pattern_short by assumption. tauto.
    + rewrite left_to_right_pattern by (lia || assumption). cbn [finish].
      split; [discriminate|lia].
  - destruct (lawnmower_pattern_exact n 0 0 fuel ltac:(lia) Hfit)
      as [Hdone Hshort].
    destruct (Nat.lt_ge_cases (2 * fuel) n) as [Hlt|Hge].
    + rewrite Hshort by exact Hlt. tauto.
    + rewrite Hdone by exact Hge. cbn [finish].
      split; [discriminate|lia].
Qed.

Lemma outer_iterations_witness :
  1 <= 4 /\ fits_unsigned 4 /\
  exists d,
    disk_state_new 4 = Ret d /\
    (sort_left_to_right 2 d = None <-> 2 < 4) /\
    (sort_lawnmower 2 d = None <-> 2 * 2 < 4).
Proof.
  split; [lia|]. split; [vm_compute; discriminate|].
  apply (outer_iterations 4 2); [lia|vm_compute; discriminate].
Defined.

(** ** What the loops never do *)

Lemma left_to_right_no_abort fuel : forall (d : list disk_color) c,
  d <> [] -> left_to_right_while fuel (d, c) <> Some AssertFail.
Proof.
  induction fuel as [|fuel IH]; intros d c Hd;
    cbn [left_to_right_while fst];
    pose proof (is_sorted_no_abort d) as Hna;
    destruct (is_sorted d) as [[|]| |]; try discriminate; try contradiction.
  destruct (forward_pass_facts d c Hd) as (d' & s & -> & Hp & _).
  apply IH. intros ->. apply Permutation_nil_r in Hp. contradiction.
Qed.

Lemma lawnmower_no_abort fuel : forall (d : list disk_color) c,
  d <> [] -> lawnmower_while fuel (d, c) <> Some AssertFail.
Proof.
  induction fuel as [|fuel IH]; intros d c Hd;
    cbn [lawnmower_while fst];
    pose proof (is_sorted_no_abort d) as Hna;
    destruct (is_sorted d) as [[|]| |]; try discriminate; try contradiction.
  destruct (forward_pass_facts d c Hd) as (d1 & s1 & -> & Hp1 & _).
  cbn [cbind].
  assert (Hd1 : d1 <> [])
    by (intros ->; apply Permutation_nil_r in Hp1; contradiction).
  destruct (backward_pass_facts d1 (c + s1) Hd1) as (d2 & s2 & -> & Hp2 & _).
  apply IH. intros ->. apply Permutation_nil_r in Hp2. contradiction.
Qed.

(** X17: on a non-empty row neither algorithm ever fails an assertion,
    whatever the colours and however many iterations are run: every [get]
    and [swap] of the loops is within bounds. *)
Theorem no_assertion_failure fuel (d : list disk_color) :
  0 < total_count d ->
  sort_left_to_right fuel d <> Some AssertFail /\
  sort_lawnmower fuel d <> Some AssertFail.
Proof.
  intros Hpos. assert (Hd : d <> []) by (intros ->; simpl in Hpos; lia).
  unfold sort_left_to_right, sort_lawnmower, finish.
  pose proof (left_to_right_no_abort fuel d 0 Hd) as H1.
  pose proof (lawnmower_no_abort fuel d 0 Hd) as H2.
  destruct (left_to_right_while fuel (d, 0)) as [[?| |]|];
    destruct (lawnmower_while fuel (d, 0)) as [[?| |]|];
    split; congruence.
Qed.

Lemma no_assertion_failure_witness :
  0 < total_count [DISK_DARK; DISK_DARK; DISK_DARK] /\
  sort_left_to_right 5 [DISK_DARK; DISK_DARK; DISK_DARK] <> Some AssertFail /\
  sort_lawnmower 5 [DISK_DARK; DISK_DARK; DISK_DARK] <> Some AssertFail.
Proof.
  split; [simpl; lia|]. apply no_assertion_failure. simpl. lia.
Defined.

(** ** The swaps behind a result *)














(** ** Sorting what has been sorted *)

Lemma left_to_right_exit fuel : forall (st st' : list disk_color * nat),
  left_to_right_while fuel st = Some (Ret st') -> is_sorted (fst st') = Ret true.
Proof.
  induction fuel as [|fuel IH]; intros st st'; cbn [left_to_right_while];
    destruct (is_sorted (fst st)) as [[|]| |] eqn:Es; try discriminate;
    try (intros [= <-]; exact Es).
  destruct (forward_pass st) as [st1| |]; try discriminate. apply IH.
Qed.

Lemma lawnmower_exit fuel : forall (st st' : list disk_color * nat),
  lawnmower_while fuel st = Some (Ret st') -> is_sorted (fst st') = Ret true.
Proof.
  induction fuel as [|fuel IH]; intros st st'; cbn [lawnmower_while];
    destruct (is_sorted (fst st)) as [[|]| |] eqn:Es; try discriminate;
    try (intros [= <-]; exact Es).
  destruct (st1 <- forward_pass st;; backward_pass st1) as [st2| |];
    try discriminate.
  apply IH.
Qed.

(** X19: whenever either algorithm returns a row, [is_sorted] is true on
    it, and running either algorithm on that row again returns it
    unchanged with a swap count of 0. *)
Theorem sort_again fuel (d : list disk_color) r :
  sort_left_to_right fuel d = Some (Ret r) \/
  sort_lawnmower fuel d = Some (Ret r) ->
  is_sorted (after r) = Ret true /\
  forall fuel',
    sort_left_to_right fuel' (after r) = Some (Ret (mk_sorted_disks (after r) 0)) /\
    sort_lawnmower fuel' (after r) = Some (Ret (mk_sorted_disks (after r) 0)).
Proof.
  intros H.
  assert (Hs : is_sorted (after r) = Ret true).
  { unfold sort_left_to_right, sort_lawnmower, finish in H.
    destruct H as [H|H].
    - destruct (left_to_right_while fuel (d, 0)) as [[st| |]|] eqn:E;
        try discriminate H.
      injection H as <-. exact (left_to_right_exit _ _ _ E).
    - destruct (lawnmower_while fuel (d, 0)) as [[st| |]|] eqn:E;
        try discriminate H.
      injection H as <-. exact (lawnmower_exit _ _ _ E). }
  split; [exact Hs|]. intros fuel'.
  unfold sort_left_to_right, sort_lawnmower.
  destruct fuel'; cbn [left_to_right_while lawnmower_while fst];
    rewrite Hs; split; reflexivity.
Qed.

Lemma sort_again_witness :
  sort_left_to_right 2 [DISK_DARK; DISK_LIGHT; DISK_DARK; DISK_LIGHT]
  = Some (Ret (mk_sorted_disks [DISK_LIGHT; DISK_LIGHT; DISK_DARK; DISK_DARK] 3)) /\
  is_sorted [DISK_LIGHT; DISK_LIGHT; DISK_DARK; DISK_DARK] = Ret true /\
  forall fuel',
    sort_left_to_right fuel' [DISK_LIGHT; DISK_LIGHT; DISK_DARK; DISK_DARK]
    = Some (Ret (mk_sorted_disks [DISK_LIGHT; DISK_LIGHT; DISK_DARK; DISK_DARK] 0)) /\
    sort_lawnmower fuel' [DISK_LIGHT; DISK_LIGHT; DISK_DARK; DISK_DARK]
    = Some (Ret (mk_sorted_disks [DISK_LIGHT; DISK_LIGHT; DISK_DARK; DISK_DARK] 0)).
Proof.
  split; [reflexivity|].
  apply (sort_again 2 [DISK_DARK; DISK_LIGHT; DISK_DARK; DISK_LIGHT]
           (mk_sorted_disks [DISK_LIGHT; DISK_LIGHT; DISK_DARK; DISK_DARK] 3)).
  left. reflexivity.
Defined.

(** ** What a single pass achieves *)

Lemma bubble_last a b l : forall x,
  a <> b -> 1 <= count_color a (x :: l) ->
  last (fst (bubble a b x l)) = Some a.
Proof.
  induction l as [|y l IH]; intros x Hab Hc.
  - cbn [count_color bubble fst] in *.
    destruct (decide (x = a)) as [-> | _]; [reflexivity|lia].
  - cbn [bubble].
    destruct (decide (x = a /\ y = b)) as [[-> ->] | Hn]; cbn [fst].
    + rewrite last_cons, IH; [reflexivity|exact Hab|].
      cbn [count_color]. rewrite decide_True by reflexivity. lia.
    + rewrite last_cons, IH; [reflexivity|exact Hab|].
      destruct (Nat.eq_dec (count_color a (y :: l)) 0) as [H0|H0]; [|lia].
      exfalso. apply Hn.
      cbn [count_color] in Hc, H0.
      destruct (decide (x = a)) as [-> | _]; [|lia]. split; [reflexivity|].
      destruct (two_colors a b Hab y) as [-> | ->]; [|reflexivity].
      rewrite decide_True in H0 by reflexivity. lia.
Qed.

Lemma balanced_not_reported_unsorted (d : list disk_color) :
  balanced d -> inversions DISK_DARK DISK_LIGHT d = 0 ->
  is_sorted d <> Ret false.
Proof.
  intros Hb H0 Hs. pose proof (balanced_half d Hb) as Hhalf.
  destruct Hb as [H1 H2].
  apply is_sorted_false_inv in Hs as [Hz|(j & Hj & Hd)]; [lia|].
  rewrite (no_inversions_shape d H0), <- H2 in Hd.
  fold (sorted_row (count_color DISK_LIGHT d)) in Hd.
  rewrite sorted_row_light in Hd by lia. discriminate.
Qed.

(** X20: on a non-empty reachable row each pass succeeds and lowers the
    number of dark-before-light pairs of positions by exactly the number
    of swaps it counts; a forward pass on a row that [is_sorted] reports
    unsorted performs at least one swap. *)
Theorem pass_progress d c :
  reachable d -> 0 < total_count d ->
  (exists d' s,
     forward_pass (d, c) = Ret (d', c + s) /\
     inversions DISK_DARK DISK_LIGHT d' + s = inversions DISK_DARK DISK_LIGHT d /\
     (is_sorted d = Ret false -> 1 <= s)) /\
  (exists d' s,
     backward_pass (d, c) = Ret (d', c + s) /\
     inversions DISK_DARK DISK_LIGHT d' + s = inversions DISK_DARK DISK_LIGHT d).
Proof.
  intros Hr Hpos. pose proof (reachable_balanced d Hr Hpos) as Hb.
  pose proof (balanced_nonempty d Hb) as Hd. split.
  - destruct (forward_pass_facts d c Hd) as (d' & s & Hpass & _ & Hdec & Hprog).
    exists d', s. split; [exact Hpass|]. split; [exact Hdec|].
    intros Hs. destruct s as [|s]; [|lia].
    exfalso. exact (balanced_not_reported_unsorted d Hb (Hprog eq_refl) Hs).
  - destruct (backward_pass_facts d c Hd) as (d' & s & Hpass & _ & Hdec).
    now exists d', s.
Qed.

Lemma pass_progress_witness :
  reachable [DISK_DARK; DISK_LIGHT; DISK_DARK; DISK_LIGHT] /\
  0 < total_count [DISK_DARK; DISK_LIGHT; DISK_DARK; DISK_LIGHT] /\
  (exists d' s,
     forward_pass ([DISK_DARK; DISK_LIGHT; DISK_DARK; DISK_LIGHT], 0)
     = Ret (d', 0 + s) /\
     inversions DISK_DARK DISK_LIGHT d' + s
     = inversions DISK_DARK DISK_LIGHT [DISK_DARK; DISK_LIGHT; DISK_DARK; DISK_LIGHT] /\
     (is_sorted [DISK_DARK; DISK_LIGHT; DISK_DARK; DISK_LIGHT] = Ret false ->
      1 <= s)) /\
  (exists d' s,
     backward_pass ([DISK_DARK; DISK_LIGHT; DISK_DARK; DISK_LIGHT], 0)
     = Ret (d', 0 + s) /\
     inversions DISK_DARK DISK_LIGHT d' + s
     = inversions DISK_DARK DISK_LIGHT [DISK_DARK; DISK_LIGHT; DISK_DARK; DISK_LIGHT]).
Proof.
  assert (Hr : reachable [DISK_DARK; DISK_LIGHT; DISK_DARK; DISK_LIGHT])
    by (apply (reach_new 2); reflexivity).
  split; [exact Hr|]. split; [simpl; lia|].
  apply (pass_progress _ 0 Hr). simpl. lia.
Defined.

(** X21: after one forward pass over a non-empty reachable row the last
    disk is dark, and after one backward pass the first disk is light. *)
Theorem pass_settles_end d c :
  reachable d -> 0 < total_count d ->
  (exists d' c',
     forward_pass (d, c) = Ret (d', c') /\
     get d' (total_count d - 1) = Ret DISK_DARK) /\
  (exists d' c',
     backward_pass (d, c) = Ret (d', c') /\ get d' 0 = Ret DISK_LIGHT).
Proof.
  intros Hr Hpos. destruct (reachable_balanced d Hr Hpos) as [H1 H2].
  assert (Hd : d <> []) by (apply balanced_nonempty; now split).
  split.
  - eexists _, _. split; [now apply forward_pass_scan|].
    apply get_Ret. unfold total_count.
    rewrite (Permutation_length (scan_Permutation DISK_DARK DISK_LIGHT d)).
    rewrite Nat.sub_1_r, <- last_lookup.
    destruct d as [|x l]; [contradiction|]. cbn [scan].
    apply bubble_last; [discriminate|lia].
  - eexists _, _. split; [now apply backward_pass_scan|].
    apply get_Ret. rewrite <- head_lookup, head_reverse.
    pose proof (count_color_Permutation DISK_LIGHT _ _ (reverse_Permutation d)) as Hp.
    destruct (reverse d) as [|x l]; [simpl in Hp; lia|]. cbn [scan].
    apply bubble_last; [discriminate|lia].
Qed.

Lemma pass_settles_end_witness :
  reachable [DISK_DARK; DISK_LIGHT; DISK_DARK; DISK_LIGHT] /\
  0 < total_count [DISK_DARK; DISK_LIGHT; DISK_DARK; DISK_LIGHT] /\
  (exists d' c',
     forward_pass ([DISK_DARK; DISK_LIGHT; DISK_DARK; DISK_LIGHT], 0)
     = Ret (d', c') /\
     get d' (total_count [DISK_DARK; DISK_LIGHT; DISK_DARK; DISK_LIGHT] - 1)
     = Ret DISK_DARK) /\
  (exists d' c',
     backward_pass ([DISK_DARK; DISK_LIGHT; DISK_DARK; DISK_LIGHT], 0)
     = Ret (d', c') /\ get d' 0 = Ret DISK_LIGHT).
Proof.
  assert (Hr : reachable [DISK_DARK; DISK_LIGHT; DISK_DARK; DISK_LIGHT])
    by (apply (reach_new 2); reflexivity).
  split; [exact Hr|]. split; [simpl; lia|].
  apply (pass_settles_end _ 0 Hr). simpl. lia.
Defined.

(** ** Where the integer widths show *)

(** X22: for every n >= 1 the constructor builds DARK, LIGHT repeated k
    times, where 2k is the product n * 2 reduced modulo 2^64 (stated for
    k at most UINT_MAX). For n = 2^63 this is the empty row, on which [is_sorted] is false and
    both algorithms stop at a failed assertion in their first
    iteration. *)
Theorem constructor_wraps :
  (forall n, 1 <= n -> fits_unsigned (wrapped_pairs n) ->
     disk_state_new n = Ret (alternating DISK_DARK DISK_LIGHT (wrapped_pairs n)) /\
     N.of_nat (wrapped_pairs n * 2) = size_mul (N.of_nat n) 2) /\
  disk_state_new wrapping_pairs = Ret [] /\
  is_sorted [] = Ret false /\
  forall fuel,
    sort_left_to_right (S fuel) [] = Some AssertFail /\
    sort_lawnmower (S fuel) [] = Some AssertFail.
Proof.
  split; [|split; [exact disk_state_new_wrapping|split; [reflexivity|]]].
  - intros n Hn _. split; [now apply disk_state_new_wrapped|].
    rewrite <- size_mul_two. apply N2Nat.id.
  - intros fuel. split; reflexivity.
Qed.

Lemma constructor_wraps_witness :
  1 <= 2 /\ fits_unsigned (wrapped_pairs 2) /\
  disk_state_new 2 = Ret (alternating DISK_DARK DISK_LIGHT (wrapped_pairs 2)) /\
  N.of_nat (wrapped_pairs 2 * 2) = size_mul (N.of_nat 2) 2.
Proof.
  split; [lia|]. split; [vm_compute; discriminate|].
  destruct constructor_wraps as [H _].
  apply H; [lia|vm_compute; discriminate].
Defined.

Lemma is_sorted_loop_wraps (d : list disk_color) fuel : forall i s,
  ~ fits_unsigned (length d / 2) -> (i <= UINT_MAX)%N ->
  (forall j, fits_unsigned j -> d !! j = Some DISK_LIGHT) ->
  is_sorted_loop fuel i s d = NoReturn.
Proof.
  induction fuel as [|fuel IH]; intros i s Hbig Hi Hl; cbn [is_sorted_loop];
    [reflexivity|].
  unfold total_count.
  destruct (N.ltb_spec i (N.of_nat (length d / 2))) as [Hlt|Hge];
    [|unfold fits_unsigned in Hbig; lia].
  rewrite get_lookup, Hl by (unfold fits_unsigned; lia). cbn [cbind].
  apply IH; [exact Hbig|apply uint_add_bound|exact Hl].
Qed.

(** X23: on a row of n light disks followed by n dark disks with n larger
    than UINT_MAX the counter of [is_sorted] wraps before it reaches n, so
    [is_sorted] never returns, and neither does either algorithm. *)
Theorem long_sorted_row_hangs n :
  ~ fits_unsigned n ->
  is_sorted (sorted_row n) = NoReturn /\
  forall fuel,
    sort_left_to_right fuel (sorted_row n) = Some NoReturn /\
    sort_lawnmower fuel (sorted_row n) = Some NoReturn.
Proof.
  intros Hbig.
  assert (Hs : is_sorted (sorted_row n) = NoReturn).
  { apply is_sorted_loop_wraps.
    - now rewrite half_sorted_row.
    - unfold UINT_MAX. lia.
    - intros j Hj. apply sorted_row_light.
      unfold fits_unsigned in *. lia. }
  split; [exact Hs|]. intros fuel.
  unfold sort_left_to_right, sort_lawnmower.
  destruct fuel; cbn [left_to_right_while lawnmower_while fst];
    rewrite Hs; split; reflexivity.
Qed.

Lemma long_sorted_row_hangs_witness :
  ~ fits_unsigned uncounted_pairs /\
  is_sorted (sorted_row uncounted_pairs) = NoReturn.
Proof.
  split; [exact uncounted_pairs_big|].
  apply (long_sorted_row_hangs uncounted_pairs uncounted_pairs_big).
Defined.

(** ** The number of iterations given to the two predicates is enough *)

Lemma is_sorted_loop_stable (d : list disk_color) n :
  forall fuel fuel' i s s',
  ~ fits_unsigned (length d / 2) -> (i <= UINT_MAX)%N ->
  N.to_nat (UINT_MAX - i) = n -> n < fuel -> n < fuel' ->
  (forall j, j < N.to_nat i -> d !! j = Some DISK_LIGHT) ->
  (0 < i -> s = s')%N ->
  is_sorted_loop fuel i s d = is_sorted_loop fuel' i s' d.
Proof.
  induction n as [|n IH]; intros fuel fuel' i s s' Hbig Hi Hn Hf Hf' Hpre Hs;
    (destruct fuel as [|fuel]; [lia|]); (destruct fuel' as [|fuel']; [lia|]);
    cbn [is_sorted_loop]; unfold total_count;
    pose proof (half_le_length d) as Hh;
    (destruct (N.ltb_spec i (N.of_nat (length d / 2))) as [Hlt|Hge];
      [|unfold fits_unsigned in Hbig; lia]);
    rewrite get_lookup;
    destruct (lookup_lt_is_Some_2 d (N.to_nat i) ltac:(lia)) as [c Hc];
    rewrite Hc; cbn [cbind]; (destruct c; [|reflexivity]).
  - assert (i = UINT_MAX) as -> by lia.
    change (uint_add UINT_MAX 1) with 0%N.
    assert (Hall : forall j, fits_unsigned j -> d !! j = Some DISK_LIGHT).
    { intros j Hj. unfold fits_unsigned in Hj.
      destruct (decide (j = N.to_nat UINT_MAX)) as [-> | Hne]; [exact Hc|].
      apply Hpre. lia. }
    rewrite !is_sorted_loop_wraps by (assumption || (unfold UINT_MAX; lia)).
    reflexivity.
  - rewrite uint_add_small by lia.
    apply IH; try assumption; try lia.
    intros j Hj. destruct (decide (j = N.to_nat i)) as [-> | Hne]; [exact Hc|].
    apply Hpre. lia.
Qed.

Lemma is_sorted_fuel_irrelevant (d : list disk_color) extra :
  is_sorted_loop (S (length d / 2) + extra) 0 false d = is_sorted d.
Proof.
  destruct (N.le_gt_cases (N.of_nat (length d / 2)) UINT_MAX) as [Hfit|Hbig].
  - destruct (is_sorted_loop_exact d (S (length d / 2) + extra) 0 false Hfit)
      as (b1 & H1 & Hiff1); [lia|lia|intros j Hj; lia|split; [discriminate|lia]|].
    destruct (is_sorted_spec d Hfit) as (b2 & H2 & Hiff2).
    change (N.of_nat 0) with 0%N in H1. rewrite H1, H2. f_equal.
    destruct b1, b2; try reflexivity; [symmetry|]; tauto.
  - unfold is_sorted, total_count.
    apply (is_sorted_loop_stable d (N.to_nat (UINT_MAX - 0)));
      [unfold fits_unsigned; lia|unfold UINT_MAX; lia|reflexivity
      |unfold UINT_MAX in *; lia|unfold UINT_MAX in *; lia
      |intros j Hj; change (N.to_nat 0) with 0 in Hj; lia|lia].
Qed.

Lemma even_to_nat (i : N) : (i mod 2 = 0)%N -> Nat.even (N.to_nat i) = true.
Proof.
  intros Hev. apply Nat.even_spec. exists (N.to_nat (i / 2)).
  pose proof (N.Div0.div_mod i 2) as Hd. lia.
Qed.

Lemma is_alternating_loop_wraps (d : list disk_color) fuel : forall i s,
  ~ counts_by_two (length d) -> (i mod 2 = 0)%N -> (i <= UINT_MAX)%N ->
  (forall j, fits_unsigned j -> Nat.even j = true -> d !! j = Some DISK_DARK) ->
  is_alternating_loop fuel i s d = NoReturn.
Proof.
  induction fuel as [|fuel IH]; intros i s Hbig Hev Hi Hl;
    cbn [is_alternating_loop]; [reflexivity|].
  assert (Hne : i <> UINT_MAX) by (intros ->; discriminate Hev).
  unfold total_count.
  destruct (N.ltb_spec i (N.of_nat (length d))) as [Hlt|Hge];
    [|unfold counts_by_two in Hbig; lia].
  pose proof (even_to_nat i Hev) as Heven.
  rewrite get_lookup, Hl by (unfold fits_unsigned; lia || exact Heven).
  cbn [cbind]. apply IH; [exact Hbig| |apply uint_add_bound|exact Hl].
  unfold uint_add, UINT_MAX.
  change (4294967295 + 1)%N with (2 * 2147483648)%N.
  rewrite N.Div0.mod_mul_r.
  rewrite (N.mul_comm 2), N.Div0.mod_add, N.Div0.mod_mod.
  rewrite <- N.Div0.add_mod_idemp_l, Hev. reflexivity.
Qed.

Lemma is_alternating_loop_stable (d : list disk_color) n :
  forall fuel fuel' i s s',
  ~ counts_by_two (length d) -> (i mod 2 = 0)%N -> (i <= UINT_MAX)%N ->
  N.to_nat (UINT_MAX - i) / 2 = n -> n < fuel -> n < fuel' ->
  (forall j, j < N.to_nat i -> Nat.even j = true -> d !! j = Some DISK_DARK) ->
  (0 < i -> s = s')%N ->
  is_alternating_loop fuel i s d = is_alternating_loop fuel' i s' d.
Proof.
  induction n as [|n IH];
    intros fuel fuel' i s s' Hbig Hev Hi Hn Hf Hf' Hpre Hs;
    (destruct fuel as [|fuel]; [lia|]); (destruct fuel' as [|fuel']; [lia|]);
    cbn [is_alternating_loop]; unfold total_count;
    assert (Hne : i <> UINT_MAX) by (intros ->; discriminate Hev);
    (destruct (N.ltb_spec i (N.of_nat (length d))) as [Hlt|Hge];
      [|unfold counts_by_two in Hbig; lia]);
    rewrite get_lookup;
    destruct (lookup_lt_is_Some_2 d (N.to_nat i) ltac:(lia)) as [c Hc];
    rewrite Hc; cbn [cbind]; (destruct c; [reflexivity|]).
  - apply Nat.div_small_iff in Hn; [|lia].
    pose proof (even_to_nat i Hev) as Hodd.
    assert (i = UINT_MAX - 1)%N as -> by (unfold UINT_MAX in *; lia).
    change (uint_add (UINT_MAX - 1) 2) with 0%N.
    assert (Hall : forall j, fits_unsigned j -> Nat.even j = true ->
                             d !! j = Some DISK_DARK).
    { intros j Hj Hje. unfold fits_unsigned in Hj.
      destruct (Nat.lt_ge_cases j (N.to_nat (UINT_MAX - 1))) as [Hlt'|Hge'];
        [now apply Hpre|].
      assert (j = N.to_nat (UINT_MAX - 1) \/ j = S (N.to_nat (UINT_MAX - 1)))
        as [-> | ->] by (unfold UINT_MAX in *; lia); [exact Hc|].
      rewrite Nat.even_succ, <- Nat.negb_even, Hodd in Hje. discriminate. }
    rewrite !is_alternating_loop_wraps
      by (assumption || reflexivity || (unfold UINT_MAX; lia)).
    reflexivity.
  - assert (Hx : 2 <= N.to_nat (UINT_MAX - i)).
    { destruct (Nat.lt_ge_cases (N.to_nat (UINT_MAX - i)) 2) as [Hs2|Hs2];
        [|exact Hs2].
      rewrite Nat.div_small in Hn by exact Hs2. discriminate. }
    assert (Hi2 : (i + 2 <= UINT_MAX)%N) by lia.
    rewrite uint_add_small by exact Hi2.
    pose proof (even_to_nat i Hev) as Heven.
    apply IH; try assumption; try lia.
    + rewrite <- N.Div0.add_mod_idemp_l, Hev. reflexivity.
    + replace (N.to_nat (UINT_MAX - i))
        with (N.to_nat (UINT_MAX - (i + 2)) + 1 * 2) in Hn by lia.
      rewrite Nat.div_add in Hn by lia. lia.
    + intros j Hj Hje.
      destruct (Nat.lt_ge_cases j (N.to_nat i)) as [Hji|Hji]; [now apply Hpre|].
      assert (j = N.to_nat i \/ j = S (N.to_nat i)) as [-> | ->] by lia;
        [exact Hc|].
      rewrite Nat.even_succ, <- Nat.negb_even, Heven in Hje. discriminate.
Qed.

Lemma is_alternating_fuel_irrelevant (d : list disk_color) extra :
  is_alternating_loop (S (length d) + extra) 0 false d = is_alternating d.
Proof.
  destruct (N.lt_ge_cases (N.of_nat (length d)) UINT_MAX) as [Hfit|Hbig].
  - destruct (is_alternating_loop_exact d (S (length d) + extra) 0 false Hfit)
      as (b1 & H1 & Hiff1);
      [reflexivity|lia|lia|intros j Hj; lia|split; [discriminate|lia]|].
    destruct (is_alternating_spec d Hfit) as (b2 & H2 & Hiff2).
    change (N.of_nat 0) with 0%N in H1. rewrite H1, H2. f_equal.
    destruct b1, b2; try reflexivity; [symmetry|]; tauto.
  - unfold is_alternating, total_count.
    assert (Hq : N.to_nat (UINT_MAX - 0) / 2 < S (length d)).
    { apply Nat.le_lt_trans with (N.to_nat (UINT_MAX - 0));
        [apply Nat.Div0.div_le_upper_bound; lia|unfold UINT_MAX in *; lia]. }
    apply (is_alternating_loop_stable d (N.to_nat (UINT_MAX - 0) / 2));
      [unfold counts_by_two; lia|reflexivity|unfold UINT_MAX; lia|reflexivity
      |apply Nat.lt_le_trans with (1 := Hq); lia|exact Hq
      |intros j Hj; change (N.to_nat 0) with 0 in Hj; lia|lia].
Qed.

(** X24: the loops of [is_sorted] and [is_alternating] are given
    [total_count / 2 + 1] and [total_count + 1] tests of their condition;
    allowing any number of further iterations never changes the outcome,
    so a loop that has not returned by then never returns. *)
Theorem predicates_fuel_irrelevant (d : list disk_color) extra :
  is_sorted_loop (S (total_count d / 2) + extra) 0 false d = is_sorted d /\
  is_alternating_loop (S (total_count d) + extra) 0 false d = is_alternating d.
Proof.
  split; [apply is_sorted_fuel_irrelevant|apply is_alternating_fuel_irrelevant].
Qed.
